(** * IIT-KGP Pathfinder backend: shortest walking path and turn-by-turn directions

    A shallow embedding of [src/main.py].

    Numbers.  Python floats are modelled as rationals [Q]: every finite
    binary64 value is a rational, the comparisons against the integer
    thresholds of the source are exact on them, and [+], [-], [*] are taken
    without rounding.  Equality of numeric results is therefore stated with
    [==] (Qeq).  The C math library ([math.sin], [math.cos], [math.atan2]) is
    an interface ([MathLib]) whose functions are left abstract.

    Exceptions.  Python code that can raise is written in the [result] monad
    ([Ok v] or [Raise e]); a raised exception aborts the rest of the handler
    exactly as in Python.

    Libraries.  [osmnx.distance.nearest_nodes], [networkx.shortest_path] and
    [networkx.shortest_path_length] are an interface ([RoutingLib]); module
    [PathSearch] gives an implementation of it that follows section 4 of the
    specification. *)

From Stdlib Require Import QArith Qround Qabs Lqa Lia ZArith.
From stdpp Require Import base option list gmap strings.

Open Scope Q_scope.

(** ** Python values and builtins *)

(** The exceptions that can leave the handlers of [main.py]. *)
Inductive exn : Type :=
  | KeyError
  | IndexError
  | TypeError
  | NodeNotFound
  | NetworkXNoPath
  | EmptyIndexError
  | ServiceError
  | HTTPException (status_code : Z) (detail : string).

Inductive result (A : Type) : Type :=
  | Ok (a : A)
  | Raise (e : exn).
Arguments Ok {A} a.
Arguments Raise {A} e.

#[global] Instance result_ret : MRet result := λ A a, Ok a.
#[global] Instance result_bind : MBind result := λ A B f m,
  match m with
  | Ok a => f a
  | Raise e => Raise e
  end.
#[global] Instance result_fmap : FMap result := λ A B f m,
  match m with
  | Ok a => Ok (f a)
  | Raise e => Raise e
  end.

(** [for x in xs: acc = body(x, acc)], aborting at the first exception. *)
Fixpoint for_each {A S : Type} (body : A → S → result S) (xs : list A) (acc : S)
  : result S :=
  match xs with
  | [] => Ok acc
  | x :: xs' => acc' ← body x acc; for_each body xs' acc'
  end.

(** [l[i]] for a non-negative index. *)
Definition list_getitem {A : Type} (l : list A) (i : nat) : result A :=
  match l !! i with
  | Some a => Ok a
  | None => Raise IndexError
  end.

(** [round(x)] with one argument: the nearest integer, ties to the even one. *)
Definition py_round (x : Q) : Z :=
  let f := Qfloor x in
  match Qcompare (x - inject_Z f) (1 # 2) with
  | Lt => f
  | Gt => (f + 1)%Z
  | Eq => if Z.even f then f else (f + 1)%Z
  end.

(** [round(x, 2)]: the nearest multiple of 1/100. *)
Definition py_round2 (x : Q) : Q := inject_Z (py_round (x * 100)) / 100.

(** [x % m] on numbers, for a positive modulus: the result has the sign of [m]. *)
Definition py_mod (x m : Q) : Q := x - m * inject_Z (Qfloor (x / m)).

Definition Qltb (a b : Q) : bool := negb (Qle_bool b a).

(** ** The math library *)

Class MathLib : Type := {
  sin : Q → Q;
  cos : Q → Q;
  atan2 : Q → Q → Q
}.

(** [math.radians] and [math.degrees] multiply by the binary64 constants
    closest to pi/180 and 180/pi. *)
Definition degToRad : Q := 5030569068109113 # 288230376151711744.
Definition radToDeg : Q := 1007958012753983 # 17592186044416.
Definition radians (x : Q) : Q := x * degToRad.
Definition degrees (x : Q) : Q := x * radToDeg.

(** ** The street graph: an undirected multigraph with attributes *)

Record node_data : Type := { node_y : Q; node_x : Q }.

(** The [name] attribute of an OSM edge is a string or a list of strings. *)
Inductive street_name : Type :=
  | NameStr (s : string)
  | NameList (aliases : list string).

(** The attribute dictionary of an edge; a missing key is [None]. *)
Record edge_attrs : Type := {
  attr_name : option street_name;
  attr_length : option Q
}.

(** One edge of the multigraph, with its key among the parallel edges of its
    end points. *)
Record edge : Type := {
  edge_u : Z;
  edge_v : Z;
  edge_key : Z;
  edge_attr : edge_attrs
}.

Record MultiGraph : Type := {
  nodes : gmap Z node_data;
  edges : list edge
}.

(** [e] joins [u] and [v]; the graph is undirected, so in either order. *)
Definition joins (u v : Z) (e : edge) : bool :=
  (Z.eqb (edge_u e) u && Z.eqb (edge_v e) v)
  || (Z.eqb (edge_u e) v && Z.eqb (edge_v e) u).

(** [G.nodes[n]] *)
Definition nodes_getitem (G : MultiGraph) (n : Z) : result node_data :=
  match nodes G !! n with
  | Some d => Ok d
  | None => Raise KeyError
  end.

(** [G.get_edge_data(u, v)]: the dictionary from edge key to attributes of
    the edges between [u] and [v], or [None] when there is none. *)
Definition get_edge_data (G : MultiGraph) (u v : Z) : option (gmap Z edge_attrs) :=
  match filter (λ e, joins u v e = true) (edges G) with
  | [] => None
  | es => Some (list_to_map ((λ e, (edge_key e, edge_attr e)) <$> es))
  end.

(** [G.get_edge_data(u, v)[0].copy()] *)
Definition edge_data_0 (G : MultiGraph) (u v : Z) : result edge_attrs :=
  match get_edge_data G u v with
  | None => Raise TypeError
  | Some keydict =>
      match keydict !! 0%Z with
      | Some a => Ok a
      | None => Raise KeyError
      end
  end.

(** ** Helper functions of [main.py] *)

Section Bearing.
Context {M : MathLib}.

Definition calculate_bearing (lat1 lon1 lat2 lon2 : Q) : Q :=
  let dLon := radians (lon2 - lon1) in
  let y := sin dLon * cos (radians lat2) in
  let x := cos (radians lat1) * sin (radians lat2)
           - sin (radians lat1) * cos (radians lat2) * cos dLon in
  let bearing := py_mod (degrees (atan2 y x) + 360) 360 in
  bearing.
End Bearing.

Definition get_turn_instruction (angle : Q) : string :=
  if Qle_bool (-20) angle && Qle_bool angle 20 then "Continue straight"
  else if Qltb 20 angle && Qle_bool angle 65 then "Make a slight right"
  else if Qltb 65 angle && Qle_bool angle 135 then "Turn right"
  else if Qltb angle (-20) && Qle_bool (-65) angle then "Make a slight left"
  else if Qltb angle (-65) && Qle_bool (-135) angle then "Turn left"
  else if Qltb 135 angle then "Make a sharp right"
  else "Make a sharp left".

(** Lines 108-110 of [get_path]: the turn angle at a junction. *)
Definition turn_angle (bearing1 bearing2 : Q) : Q :=
  let turn_angle := bearing2 - bearing1 in
  let turn_angle := if Qltb 180 turn_angle then turn_angle - 360 else turn_angle in
  let turn_angle := if Qltb turn_angle (-180) then turn_angle + 360 else turn_angle in
  turn_angle.

(** ** The routing libraries *)

(** [ox.distance.nearest_nodes(G, X, Y)], [nx.shortest_path(G, s, t,
    weight='length')] and [nx.shortest_path_length(G, s, t,
    weight='length')]. *)
Class RoutingLib : Type := {
  nearest_nodes : MultiGraph → Q → Q → result Z;
  shortest_path : MultiGraph → Z → Z → result (list Z);
  shortest_path_length : MultiGraph → Z → Z → result Q
}.

(** ** The request handler *)

Record point : Type := { lat : Q; lon : Q }.
Record request : Type := { source : point; target : point }.

Record direction : Type := { instruction : string; distance : Z }.

Record response : Type := {
  resp_path : list (Q * Q);
  resp_distance : Q;
  resp_directions : list direction
}.

(** [e.get('name', 'Unnamed Path')], then the first alias of a list. *)
Definition street_name_of (e : edge_attrs) : result string :=
  match attr_name e with
  | None => Ok "Unnamed Path"
  | Some (NameStr s) => Ok s
  | Some (NameList aliases) => list_getitem aliases 0
  end.

(** [e.get('length', 0)] *)
Definition length_of (e : edge_attrs) : Q := default 0 (attr_length e).

Section Handler.
Context {M : MathLib}.

(** Lines 85-88: the attributes of the edge between consecutive nodes. *)
Definition route_edges_of (G : MultiGraph) (path_nodes : list Z)
  : result (list edge_attrs) :=
  mapM (λ '(u, v), edge_data_0 G u v) (zip (removelast path_nodes) (tail path_nodes)).

(** Lines 91-94: the instruction for the first edge. *)
Definition initial_instruction (first_edge : edge_attrs) : result direction :=
  street_name ← street_name_of first_edge;
  mret {| instruction := "Head toward <strong>" +:+ street_name +:+ "</strong>";
          distance := py_round (length_of first_edge) |}.

(** Lines 98-124: the body of the loop over the junctions. *)
Definition turn_step (G : MultiGraph) (path_nodes : list Z)
    (route_edges : list edge_attrs) (i : nat) (directions : list direction)
  : result (list direction) :=
  prev_id ← list_getitem path_nodes (i - 1);
  prev_node ← nodes_getitem G prev_id;
  curr_id ← list_getitem path_nodes i;
  curr_node ← nodes_getitem G curr_id;
  next_id ← list_getitem path_nodes (i + 1);
  next_node ← nodes_getitem G next_id;
  let bearing1 := calculate_bearing (node_y prev_node) (node_x prev_node)
                                    (node_y curr_node) (node_x curr_node) in
  let bearing2 := calculate_bearing (node_y curr_node) (node_x curr_node)
                                    (node_y next_node) (node_x next_node) in
  let turn_instruction := get_turn_instruction (turn_angle bearing1 bearing2) in
  next_edge ← list_getitem route_edges i;
  next_street_name ← street_name_of next_edge;
  if bool_decide (turn_instruction ≠ "Continue straight") then
    mret (directions ++
          [ {| instruction := turn_instruction +:+ " onto <strong>"
                              +:+ next_street_name +:+ "</strong>";
               distance := py_round (length_of next_edge) |} ])
  else mret directions.

(** Lines 80-124: the directions of a node sequence. *)
Definition directions_of (G : MultiGraph) (path_nodes : list Z)
  : result (list direction) :=
  if (length path_nodes <? 2)%nat then mret []
  else
    route_edges ← route_edges_of G path_nodes;
    first_edge ← list_getitem route_edges 0;
    first ← initial_instruction first_edge;
    for_each (turn_step G path_nodes route_edges)
             (seq 1 (length path_nodes - 1 - 1)) [first].

Context {L : RoutingLib}.

Definition get_path (G : MultiGraph) (data : request) : result response :=
  let source_point_data := source data in
  let dest_point_data := target data in
  let src_coords := (lat source_point_data, lon source_point_data) in
  let dst_coords := (lat dest_point_data, lon dest_point_data) in
  src_node ← nearest_nodes G (snd src_coords) (fst src_coords);
  dst_node ← nearest_nodes G (snd dst_coords) (fst dst_coords);
  path_nodes ← shortest_path G src_node dst_node;
  path_coords ← mapM (λ n, d ← nodes_getitem G n; mret (node_y d, node_x d))
                     path_nodes;
  total_distance ← shortest_path_length G src_node dst_node;
  directions ← directions_of G path_nodes;
  mret {| resp_path := path_coords;
          resp_distance := py_round2 total_distance;
          resp_directions := directions |}.
End Handler.

(** ** The HTTP boundary *)

(** What the client receives.  The web framework answers a handler's value
    with status 200, an [HTTPException] with its status code and detail, and
    any other exception with the same bare status 500. *)
Inductive http_response (A : Type) : Type :=
  | Http200 (body : A)
  | HttpError (status_code : Z) (detail : string)
  | InternalServerError.
Arguments Http200 {A} body.
Arguments HttpError {A} status_code detail.
Arguments InternalServerError {A}.

Definition serve {A : Type} (r : result A) : http_response A :=
  match r with
  | Ok a => Http200 a
  | Raise (HTTPException c d) => HttpError c d
  | Raise _ => InternalServerError
  end.

(** [reverse_geocode]: [geocode] stands for the call of the geocoding
    service, which returns an address, nothing, or fails. *)
Definition reverse_geocode (geocode : Q → Q → result (option string)) (lat lon : Q)
  : result string :=
  match geocode lat lon with
  | Ok location => Ok (default "Unknown location" location)
  | Raise _ => Raise (HTTPException 500 "Reverse geocoding service failed.")
  end.

(** ** Path search and nearest-node lookup *)

Module PathSearch.

(** The weight of an edge for the search: its [length]; networkx counts an
    edge without the attribute as 1. *)
Definition weight (e : edge) : Q := default 1 (attr_length (edge_attr e)).

(** The neighbours of [v] with the weight of the edge leading to each, one
    entry per incident edge and direction. *)
Definition incident (G : MultiGraph) (v : Z) : list (Z * Q) :=
  e ← edges G;
  (if Z.eqb (edge_u e) v then [(edge_v e, weight e)] else [])
  ++ (if Z.eqb (edge_v e) v then [(edge_u e, weight e)] else []).

(** An entry of the priority queue: tentative distance, node, and the nodes
    from that node back to the source. *)
Definition entry : Type := Q * Z * list Z.

Definition key (en : entry) : Q := fst (fst en).

(** Removes a minimal entry, the earliest inserted among equal distances. *)
Fixpoint pop_min (fringe : list entry) : option (entry * list entry) :=
  match fringe with
  | [] => None
  | en :: rest =>
      match pop_min rest with
      | None => Some (en, [])
      | Some (m, rest') =>
          if Qle_bool (key en) (key m) then Some (en, rest)
          else Some (m, en :: rest')
      end
  end.

(** The entries pushed when [v] is settled at distance [d]. *)
Definition relax (G : MultiGraph) (dist : gmap Z Q) (d : Q) (v : Z)
    (back : list Z) : list entry :=
  (λ '(u, w), (d + w, u, u :: back))
    <$> filter (λ '(u, _), dist !! u = None) (incident G v).

(** Modelled from the spec: Path Search, which [main.py] delegates to
    networkx.  Dijkstra's algorithm with edge weight = length over a
    priority queue, stopping when the target is settled; [None] means that
    the fuel ran out. *)
Fixpoint search (fuel : nat) (G : MultiGraph) (target : Z) (dist : gmap Z Q)
    (fringe : list entry) : option (result (Q * list Z)) :=
  match fuel with
  | O => None
  | S fuel' =>
      match pop_min fringe with
      | None => Some (Raise NetworkXNoPath)
      | Some ((d, v, back), rest) =>
          if decide (is_Some (dist !! v)) then search fuel' G target dist rest
          else if decide (v = target) then Some (Ok (d, reverse back))
          else search fuel' G target (<[v := d]> dist)
                      (rest ++ relax G (<[v := d]> dist) d v back)
      end
  end.

(** Every node is settled once and pushes one entry per incident edge. *)
Definition enough_fuel (G : MultiGraph) : nat := 2 * length (edges G) + 2.

(** Modelled from the spec: [ShortestPath(Graph, sourceId, destId)], the
    node sequence and the total distance. *)
Definition ShortestPath (G : MultiGraph) (sourceId destId : Z)
  : result (Q * list Z) :=
  if decide (is_Some (nodes G !! sourceId) ∧ is_Some (nodes G !! destId)) then
    match search (enough_fuel G) G destId ∅ [(0, sourceId, [sourceId])] with
    | Some r => r
    | None => Raise NetworkXNoPath
    end
  else Raise NodeNotFound.

Section SpatialIndex.
Context {M : MathLib}.

(** The square of the equirectangular distance, on the unit sphere, from
    node [d] to the point of longitude [px] and latitude [py]: the
    difference of longitude is scaled by the cosine of the mean latitude.
    Squaring and leaving out the radius keep the order of the distances. *)
Definition sq_dist (px py : Q) (d : node_data) : Q :=
  let dx := (radians (node_x d) - radians px)
            * cos ((radians (node_y d) + radians py) / 2) in
  let dy := radians (node_y d) - radians py in
  dx * dx + dy * dy.

(** [(n, d)] is preferred to [(n', d')]: closer, or as close with a lower
    identifier. *)
Definition closer (px py : Q) (a b : Z * node_data) : bool :=
  Qltb (sq_dist px py (snd a)) (sq_dist px py (snd b))
  || (Qle_bool (sq_dist px py (snd a)) (sq_dist px py (snd b))
      && Z.ltb (fst a) (fst b)).

(** Modelled from the spec: Spatial Index, [Nearest(lat, lon)], which
    [main.py] delegates to osmnx: an exhaustive scan with the
    equirectangular distance, the lowest identifier among equidistant
    nodes; it fails only on a graph without nodes. *)
Definition Nearest (G : MultiGraph) (X Y : Q) : result Z :=
  match map_to_list (nodes G) with
  | [] => Raise EmptyIndexError
  | first :: others =>
      Ok (fst (foldl (λ best c, if closer X Y c best then c else best) first others))
  end.
End SpatialIndex.

(** A walk from [s]: the node reached, the sum of the weights of its
    edges, and its nodes from the last one back to [s]. *)
Inductive walk (G : MultiGraph) (s : Z) : Z → Q → list Z → Prop :=
  | walk_start : walk G s s 0 [s]
  | walk_edge u c back v w :
      walk G s u c back → (v, w) ∈ incident G u →
      walk G s v (c + w) (v :: back).

Definition connected (G : MultiGraph) (a b : Z) : Prop :=
  ∃ c back, walk G a b c back.

Definition nonneg_weights (G : MultiGraph) : Prop :=
  ∀ e, e ∈ edges G → 0 <= weight e.

(** The number of (edge, end point) pairs whose end point is not settled:
    what can still be pushed on the queue. *)
Definition unsettled_ends (G : MultiGraph) (dist : gmap Z Q) : nat :=
  length (filter (λ e, dist !! edge_u e = None) (edges G))
  + length (filter (λ e, dist !! edge_v e = None) (edges G)).

(** The invariant of the search from [s] to [target]. *)
Record search_inv (G : MultiGraph) (s target : Z) (dist : gmap Z Q)
    (fringe : list entry) : Prop := {
  inv_walk : ∀ d v back, (d, v, back) ∈ fringe → walk G s v d back;
  inv_start : is_Some (dist !! s) ∨ ∃ d back, (d, s, back) ∈ fringe ∧ d <= 0;
  inv_opt : ∀ u du, dist !! u = Some du →
            ∀ c back, walk G s u c back → du <= c;
  inv_closed : ∀ u du, dist !! u = Some du →
               ∀ x w, (x, w) ∈ incident G u →
               is_Some (dist !! x)
               ∨ ∃ d' back', (d', x, back') ∈ fringe ∧ d' <= du + w;
  inv_target : dist !! target = None
}.

#[global] Instance routing `{M : MathLib} : RoutingLib := {|
  nearest_nodes := Nearest;
  shortest_path G s t := snd <$> ShortestPath G s t;
  shortest_path_length G s t := fst <$> ShortestPath G s t
|}.

End PathSearch.

(** ** The specification's side of the refinement statements *)

(** The threshold table of the specification's Maneuver Extractor, row by
    row; an angle outside [-180, 180] has no row. *)
Inductive turn_class : Type :=
  | Straight | SlightRight | TurnRight | SharpRight
  | SlightLeft | TurnLeft | SharpLeft.

Definition spec_turn_class (a : Q) : option turn_class :=
  if Qle_bool (-20) a && Qle_bool a 20 then Some Straight
  else if Qltb 20 a && Qle_bool a 65 then Some SlightRight
  else if Qltb 65 a && Qle_bool a 135 then Some TurnRight
  else if Qltb 135 a && Qle_bool a 180 then Some SharpRight
  else if Qle_bool (-65) a && Qltb a (-20) then Some SlightLeft
  else if Qle_bool (-135) a && Qltb a (-65) then Some TurnLeft
  else if Qle_bool (-180) a && Qltb a (-135) then Some SharpLeft
  else None.

(** The wording [main.py] gives to each row. *)
Definition turn_text (c : turn_class) : string :=
  match c with
  | Straight => "Continue straight"
  | SlightRight => "Make a slight right"
  | TurnRight => "Turn right"
  | SharpRight => "Make a sharp right"
  | SlightLeft => "Make a slight left"
  | TurnLeft => "Turn left"
  | SharpLeft => "Make a sharp left"
  end.

(** The instruction a junction contributes: none when going straight. *)
Definition emitted (c : turn_class) (street : string) (len : Q) : list direction :=
  match c with
  | Straight => []
  | _ => [ {| instruction := turn_text c +:+ " onto <strong>" +:+ street +:+ "</strong>";
              distance := py_round len |} ]
  end.

(** The forward-azimuth formula as the specification writes it, in radians,
    from latitude [phi1] to latitude [phi2] across the longitude difference
    [dlon]. *)
Definition spec_forward_azimuth `{MathLib} (phi1 phi2 dlon : Q) : Q :=
  atan2 (sin dlon * cos phi2)
        (cos phi1 * sin phi2 - sin phi1 * cos phi2 * cos dlon).

(** What the math library guarantees at zero (C standard, annex F). *)
Record MathLibAtZero (M : MathLib) : Prop := {
  sin_0 : ∀ x, x == 0 → sin x == 0;
  cos_0 : ∀ x, x == 0 → cos x == 1;
  atan2_0_0 : ∀ y x, y == 0 → x == 0 → atan2 y x == 0
}.

(** What the junction at index [i] of a node sequence contributes to the
    directions: the turn angle there falls in the row [cls] of the table,
    and [out] is the instruction of that row for the edge leaving the
    junction. *)
Definition junction `{MathLib} (G : MultiGraph) (path_nodes : list Z) (i : nat)
    (out : list direction) : Prop :=
  ∃ prev curr next dp dc dn e street cls,
    path_nodes !! (i - 1)%nat = Some prev ∧ nodes G !! prev = Some dp
    ∧ path_nodes !! i = Some curr ∧ nodes G !! curr = Some dc
    ∧ path_nodes !! (i + 1)%nat = Some next ∧ nodes G !! next = Some dn
    ∧ edge_data_0 G curr next = Ok e
    ∧ street_name_of e = Ok street
    ∧ spec_turn_class (turn_angle
                  (calculate_bearing (node_y dp) (node_x dp) (node_y dc) (node_x dc))
                  (calculate_bearing (node_y dc) (node_x dc) (node_y dn) (node_x dn)))
      = Some cls
    ∧ out = emitted cls street (length_of e).

(** ** Example data *)

(** A coarse math library (small angles, eight compass directions), enough
    to run the handler on examples. *)
Definition coarse_atan2 (y x : Q) : Q :=
  if Qeq_bool y 0 then (if Qle_bool 0 x then 0 else 22 # 7)
  else if Qeq_bool x 0 then (if Qltb 0 y then 11 # 7 else - (11 # 7))
  else if Qltb 0 x then (if Qltb 0 y then 11 # 14 else - (11 # 14))
  else (if Qltb 0 y then 33 # 14 else - (33 # 14)).

Definition coarse_math : MathLib :=
  {| sin x := x; cos x := 1; atan2 := coarse_atan2 |}.

Definition mk_node (y x : Q) : node_data := {| node_y := y; node_x := x |}.

Definition mk_edge (u v key : Z) (name : option street_name) (len : Q) : edge :=
  {| edge_u := u; edge_v := v; edge_key := key;
     edge_attr := {| attr_name := name; attr_length := Some len |} |}.

(** Three nodes around a corner, a fourth one apart from them. *)
Definition corner_graph : MultiGraph := {|
  nodes := list_to_map [ (1%Z, mk_node 0 0); (2%Z, mk_node 0 (1 # 1000));
                         (3%Z, mk_node (1 # 1000) (1 # 1000)); (4%Z, mk_node 5 5) ];
  edges := [ mk_edge 1 2 0 (Some (NameStr "Oak St")) 100;
             mk_edge 2 3 0 (Some (NameList ["Pine St"; "Old Pine Rd"])) (161 # 2);
             mk_edge 1 3 0 None 200 ]
|}.

(** Two nodes joined by two parallel edges; the longer one has key 0. *)
Definition parallel_graph : MultiGraph := {|
  nodes := list_to_map [ (1%Z, mk_node 0 0); (2%Z, mk_node 0 (1 # 1000)) ];
  edges := [ mk_edge 1 2 0 (Some (NameStr "Long Road")) 100;
             mk_edge 1 2 1 (Some (NameStr "Short Lane")) 40 ]
|}.

(** The attributes [a] are those of an edge of minimal length among the
    edges between [u] and [v]. *)
Definition of_shortest_parallel_edge (G : MultiGraph) (u v : Z) (a : edge_attrs)
  : Prop :=
  ∃ e, e ∈ edges G ∧ joins u v e = true ∧ edge_attr e = a
       ∧ ∀ e', e' ∈ edges G → joins u v e' = true →
               length_of (edge_attr e) <= length_of (edge_attr e').

Definition mk_request (slat slon tlat tlon : Q) : request :=
  {| source := {| lat := slat; lon := slon |};
     target := {| lat := tlat; lon := tlon |} |}.

(** ** Notions used by the further properties *)

(** The instruction for the same turn to the other side. *)
Definition opposite_turn (turn_instruction : string) : string :=
  if String.eqb turn_instruction "Make a slight right" then "Make a slight left"
  else if String.eqb turn_instruction "Turn right" then "Turn left"
  else if String.eqb turn_instruction "Make a sharp right" then "Make a sharp left"
  else if String.eqb turn_instruction "Make a slight left" then "Make a slight right"
  else if String.eqb turn_instruction "Turn left" then "Turn right"
  else if String.eqb turn_instruction "Make a sharp left" then "Make a sharp right"
  else turn_instruction.

(** A node sequence whose lookups all succeed: consecutive nodes are joined
    by an edge with key 0 whose street name resolves, and, when there is a
    junction, every node is in the graph. *)
Definition describable (G : MultiGraph) (path_nodes : list Z) : Prop :=
  (∀ i u v, path_nodes !! i = Some u → path_nodes !! S i = Some v →
            ∃ e street, edge_data_0 G u v = Ok e ∧ street_name_of e = Ok street)
  ∧ ((3 ≤ length path_nodes)%nat →
     ∀ n, n ∈ path_nodes → is_Some (nodes G !! n)).


(** * Properties *)

(** ** Comparisons and rounding *)

Lemma Qle_bool_true a b : Qle_bool a b = true ↔ a <= b.
Proof. apply Qle_bool_iff. Qed.

Lemma Qle_bool_false a b : Qle_bool a b = false ↔ b < a.
Proof.
  rewrite <- not_true_iff_false, Qle_bool_iff. split; [apply Qnot_le_lt | apply Qlt_not_le].
Qed.

Lemma Qltb_true a b : Qltb a b = true ↔ a < b.
Proof. unfold Qltb. rewrite negb_true_iff. apply Qle_bool_false. Qed.

Lemma Qltb_false a b : Qltb a b = false ↔ b <= a.
Proof. unfold Qltb. rewrite negb_false_iff. apply Qle_bool_true. Qed.

(** Turns every comparison of the goal and of the context into an
    inequality, one case at a time. *)
Ltac cmp_cases :=
  repeat match goal with
  | |- context [Qle_bool ?a ?b] =>
      let E := fresh "E" in
      destruct (Qle_bool a b) eqn:E;
      [apply Qle_bool_true in E | apply Qle_bool_false in E]
  | |- context [Qltb ?a ?b] =>
      let E := fresh "E" in
      destruct (Qltb a b) eqn:E;
      [apply Qltb_true in E | apply Qltb_false in E]
  end; simpl.

(** Decides the comparisons of the goal one after the other, dropping the
    branches a decision rules out before looking at the next one. *)
Ltac cmp_walk :=
  repeat (match goal with
          | |- context [Qle_bool ?a ?b] =>
              let E := fresh "E" in
              destruct (Qle_bool a b) eqn:E;
              [apply Qle_bool_true in E | apply Qle_bool_false in E]
          | |- context [Qltb ?a ?b] =>
              let E := fresh "E" in
              destruct (Qltb a b) eqn:E;
              [apply Qltb_true in E | apply Qltb_false in E]
          end; cbn [andb]; try (exfalso; lra)).

Lemma py_round_nearest x : Qabs (inject_Z (py_round x) - x) <= 1 # 2.
Proof.
  unfold py_round.
  pose proof (Qfloor_le x) as Hlo. pose proof (Qlt_floor x) as Hhi.
  rewrite inject_Z_plus in Hhi. change (inject_Z 1) with 1 in Hhi.
  apply Qabs_Qle_condition.
  destruct (Qcompare_spec (x - inject_Z (Qfloor x)) (1 # 2)) as [E | E | E].
  - destruct (Z.even (Qfloor x)); [| rewrite inject_Z_plus; change (inject_Z 1) with 1];
      split; lra.
  - split; lra.
  - rewrite inject_Z_plus. change (inject_Z 1) with 1. split; lra.
Qed.

Lemma py_round_inject z : py_round (inject_Z z) = z.
Proof.
  unfold py_round. rewrite Qfloor_Z.
  destruct (Qcompare_spec (inject_Z z - inject_Z z) (1 # 2)) as [E | E | E];
    [exfalso; lra | reflexivity | exfalso; lra].
Qed.

Lemma py_mod_range x m : 0 < m → 0 <= py_mod x m ∧ py_mod x m < m.
Proof.
  intros Hm. unfold py_mod.
  pose proof (Qfloor_le (x / m)) as Hlo. pose proof (Qlt_floor (x / m)) as Hhi.
  rewrite inject_Z_plus in Hhi. change (inject_Z 1) with 1 in Hhi.
  assert (Hx : x == m * (x / m)) by (field; lra).
  set (f := inject_Z (Qfloor (x / m))) in *.
  split.
  - assert (m * f <= m * (x / m)) by (apply Qmult_le_l; assumption). lra.
  - assert (m * (x / m) < m * (f + 1)) by (apply Qmult_lt_l; assumption). lra.
Qed.

(** ** Bearings and turn angles *)

Section BearingFacts.
Context {M : MathLib}.

Lemma calculate_bearing_range lat1 lon1 lat2 lon2 :
  0 <= calculate_bearing lat1 lon1 lat2 lon2
  ∧ calculate_bearing lat1 lon1 lat2 lon2 < 360.
Proof. unfold calculate_bearing. apply py_mod_range. reflexivity. Qed.

(** C3: the bearing is the forward azimuth atan2(sin dLon cos lat2,
    cos lat1 sin lat2 - sin lat1 cos lat2 cos dLon) of the two points,
    taken on the coordinates converted to radians, converted to degrees
    and reduced modulo 360; it always lies in [0, 360). *)
Theorem bearing_is_forward_azimuth lat1 lon1 lat2 lon2 :
  calculate_bearing lat1 lon1 lat2 lon2
  = py_mod (degrees (spec_forward_azimuth (radians lat1) (radians lat2)
                                     (radians (lon2 - lon1))) + 360) 360
  ∧ (∃ k : Z,
       calculate_bearing lat1 lon1 lat2 lon2
       == degrees (spec_forward_azimuth (radians lat1) (radians lat2)
                                   (radians (lon2 - lon1))) + 360 * inject_Z k)
  ∧ 0 <= calculate_bearing lat1 lon1 lat2 lon2
  ∧ calculate_bearing lat1 lon1 lat2 lon2 < 360.
Proof.
  split; [reflexivity |]. split; [| apply calculate_bearing_range].
  unfold calculate_bearing, spec_forward_azimuth, py_mod.
  set (d := degrees _).
  exists (1 - Qfloor ((d + 360) / 360))%Z.
  unfold Z.sub. rewrite inject_Z_plus, inject_Z_opp.
  change (inject_Z 1) with 1. ring.
Qed.

(** C9: the bearing from a point to itself is computed without any
    exception and is 0, the math library returning its values at zero. *)
Theorem bearing_of_point_to_itself (HM : MathLibAtZero M) lat lon :
  calculate_bearing lat lon lat lon == 0.
Proof.
  unfold calculate_bearing, py_mod.
  assert (Hd : radians (lon - lon) == 0) by (unfold radians; ring).
  pose proof (sin_0 M HM _ Hd) as Hs. pose proof (cos_0 M HM _ Hd) as Hc.
  set (dLon := radians (lon - lon)) in *.
  assert (Hy : sin dLon * cos (radians lat) == 0) by (rewrite Hs; ring).
  assert (Hx : cos (radians lat) * sin (radians lat)
               - sin (radians lat) * cos (radians lat) * cos dLon == 0)
    by (rewrite Hc; ring).
  pose proof (atan2_0_0 M HM _ _ Hy Hx) as Ha.
  set (a := atan2 _ _) in *.
  assert (Hdeg : degrees a + 360 == 360) by (unfold degrees; rewrite Ha; ring).
  assert (Hq : (degrees a + 360) / 360 == inject_Z 1)
    by (rewrite Hdeg; reflexivity).
  rewrite (Qfloor_comp _ _ Hq), Qfloor_Z, Hdeg. reflexivity.
Qed.
End BearingFacts.

Lemma turn_angle_cases b1 b2 :
  (180 < b2 - b1 ∧ turn_angle b1 b2 = b2 - b1 - 360 ∧ -180 <= b2 - b1 - 360)
  ∨ (180 < b2 - b1 ∧ turn_angle b1 b2 = b2 - b1 - 360 + 360 ∧ b2 - b1 - 360 < -180)
  ∨ (b2 - b1 < -180 ∧ turn_angle b1 b2 = b2 - b1 + 360)
  ∨ (-180 <= b2 - b1 ∧ b2 - b1 <= 180 ∧ turn_angle b1 b2 = b2 - b1).
Proof.
  unfold turn_angle.
  destruct (Qltb 180 (b2 - b1)) eqn:E1.
  - apply Qltb_true in E1.
    destruct (Qltb (b2 - b1 - 360) (-180)) eqn:E2.
    + apply Qltb_true in E2. right; left. auto.
    + apply Qltb_false in E2. left. auto.
  - apply Qltb_false in E1.
    destruct (Qltb (b2 - b1) (-180)) eqn:E2.
    + apply Qltb_true in E2. right; right; left. auto.
    + apply Qltb_false in E2. right; right; right. auto.
Qed.

Lemma turn_angle_bounds b1 b2 :
  0 <= b1 → b1 < 360 → 0 <= b2 → b2 < 360 →
  -180 <= turn_angle b1 b2 ∧ turn_angle b1 b2 <= 180.
Proof.
  intros H1 H1' H2 H2'.
  destruct (turn_angle_cases b1 b2) as [(Hd & -> & Hr) | [(Hd & -> & Hr)
    | [(Hd & ->) | (Hlo & Hhi & ->)]]]; split; lra.
Qed.

(** C2, as the code has it: for bearings in [0, 360) the turn angle is the
    difference of the bearings, or that difference less or plus 360, and it
    lies in the closed interval [-180, 180]; a difference of exactly -180 or
    180 is left as it is. *)
Theorem turn_angle_normalized b1 b2 :
  0 <= b1 → b1 < 360 → 0 <= b2 → b2 < 360 →
  (turn_angle b1 b2 = b2 - b1 ∨ turn_angle b1 b2 = b2 - b1 - 360
   ∨ turn_angle b1 b2 = b2 - b1 + 360)
  ∧ -180 <= turn_angle b1 b2 ∧ turn_angle b1 b2 <= 180
  ∧ (b2 - b1 == -180 → turn_angle b1 b2 = b2 - b1)
  ∧ (b2 - b1 == 180 → turn_angle b1 b2 = b2 - b1).
Proof.
  intros H1 H1' H2 H2'.
  destruct (turn_angle_cases b1 b2) as [(Hd & -> & Hr) | [(Hd & -> & Hr)
    | [(Hd & ->) | (Hlo & Hhi & ->)]]].
  - repeat split; try lra; auto; intros; exfalso; lra.
  - exfalso; lra.
  - repeat split; try lra; auto; intros; exfalso; lra.
  - repeat split; try lra; auto.
Qed.

Lemma turn_angle_normalized_witness :
  turn_angle 350 10 = 10 - 350 + 360 ∧ -180 <= turn_angle 350 10 ∧ turn_angle 350 10 <= 180.
Proof.
  assert (H0 : 0 <= 350) by (vm_compute; discriminate).
  assert (H1 : 350 < 360) by reflexivity.
  assert (H2 : 0 <= 10) by (vm_compute; discriminate).
  assert (H3 : 10 < 360) by reflexivity.
  destruct (turn_angle_normalized 350 10 H0 H1 H2 H3) as (_ & Hlo & Hhi & _).
  split; [reflexivity | split; assumption].
Defined.

(** C2 as stated fails: from bearing 180 to bearing 0 the difference is
    exactly -180, which the code leaves at -180, outside (-180, 180]. *)
Lemma turn_angle_minus_180_kept :
  0 <= 180 ∧ 180 < 360 ∧ 0 <= 0 ∧ 0 < 360
  ∧ 0 - 180 == -180
  ∧ turn_angle 180 0 == -180
  ∧ ¬ (-180 < turn_angle 180 0)
  ∧ ¬ (turn_angle 180 0 == 180).
Proof.
  repeat split; try (vm_compute; discriminate); try reflexivity.
Qed.

(** ** The result monad *)

Lemma bind_Ok {A B} (m : result A) (f : A → result B) r :
  m ≫= f = Ok r → ∃ a, m = Ok a ∧ f a = Ok r.
Proof. destruct m as [a | e]; simpl; [eauto | discriminate]. Qed.

(** Splits a successful sequence of binds into its steps. *)
Ltac inv_bind H :=
  repeat match type of H with
  | _ ≫= _ = Ok _ =>
      let a := fresh "a" in
      let Ha := fresh "Ha" in
      apply bind_Ok in H as (a & Ha & H)
  end.

Lemma list_getitem_Ok {A} (l : list A) i a : list_getitem l i = Ok a ↔ l !! i = Some a.
Proof.
  unfold list_getitem. destruct (l !! i); split; intros E; try discriminate; congruence.
Qed.

Lemma nodes_getitem_Ok G n d : nodes_getitem G n = Ok d ↔ nodes G !! n = Some d.
Proof.
  unfold nodes_getitem. destruct (nodes G !! n); split; intros E; try discriminate; congruence.
Qed.

Lemma mapM_Ok {A B} (f : A → result B) l r :
  mapM f l = Ok r → Forall2 (λ x y, f x = Ok y) l r.
Proof.
  revert r. induction l as [| x l IH]; simpl; intros r E.
  - injection E as <-. constructor.
  - inv_bind E. injection E as <-. constructor; auto.
Qed.

Lemma mapM_Ok_total {A B} (f : A → result B) l :
  Forall (λ x, ∃ y, f x = Ok y) l → ∃ r, mapM f l = Ok r.
Proof.
  induction 1 as [| x l [y Hy] _ [r Hr]]; simpl.
  - eexists; reflexivity.
  - rewrite Hy. simpl. rewrite Hr. simpl. eexists; reflexivity.
Qed.

(** A loop whose body only appends to the accumulator appends, in order,
    what each iteration contributes. *)
Lemma for_each_appends {A B} (P : A → list B → Prop)
    (body : A → list B → result (list B)) xs :
  (∀ x acc r, x ∈ xs → body x acc = Ok r → ∃ out, r = acc ++ out ∧ P x out) →
  ∀ acc r, for_each body xs acc = Ok r →
  ∃ outs, r = acc ++ concat outs ∧ Forall2 P xs outs.
Proof.
  induction xs as [| x xs IH]; intros Hbody acc r E; simpl in E.
  - injection E as <-. exists []. simpl. rewrite app_nil_r. split; [done | constructor].
  - inv_bind E.
    destruct (Hbody x acc a) as (out & -> & HP); [left | assumption |].
    destruct (IH (λ y acc' r' Hy, Hbody y acc' r' (list_elem_of_further _ _ _ Hy)) _ _ E)
      as (outs & -> & HF).
    exists (out :: outs). simpl. rewrite app_assoc. split; [done | by constructor].
Qed.

(** ** Classification of turn angles *)

Lemma get_turn_instruction_classify a :
  -180 <= a → a <= 180 →
  ∃ c, spec_turn_class a = Some c ∧ get_turn_instruction a = turn_text c.
Proof.
  intros Hlo Hhi. unfold spec_turn_class, get_turn_instruction.
  cmp_walk; eexists; split; reflexivity.
Qed.

Lemma turn_text_straight c : turn_text c = "Continue straight" ↔ c = Straight.
Proof. destruct c; simpl; split; intros E; try discriminate; reflexivity. Qed.

(** ** The directions of a route *)

Lemma zip_consecutive_lookup {A} (l : list A) i u v :
  zip (removelast l) (tail l) !! i = Some (u, v) ↔ l !! i = Some u ∧ l !! S i = Some v.
Proof.
  revert i. induction l as [| x [| y l] IH]; intros i.
  - simpl. split; [discriminate | intros [E _]; discriminate].
  - simpl. split; [discriminate | intros [_ E]; destruct i; discriminate].
  - change (removelast (x :: y :: l)) with (x :: removelast (y :: l)).
    change (tail (x :: y :: l)) with (y :: l).
    destruct i as [| i].
    + simpl. split; [intros [= -> ->]; done | intros [[= ->] [= ->]]; done].
    + change (zip (x :: removelast (y :: l)) (y :: l) !! S i)
        with (zip (removelast (y :: l)) (tail (y :: l)) !! i).
      rewrite IH. reflexivity.
Qed.

Section Directions.
Context {M : MathLib}.

Lemma route_edges_lookup G path es i e :
  route_edges_of G path = Ok es → es !! i = Some e →
  ∃ u v, path !! i = Some u ∧ path !! S i = Some v ∧ edge_data_0 G u v = Ok e.
Proof.
  intros Hes He. apply mapM_Ok in Hes.
  destruct (Forall2_lookup_r _ _ _ _ _ Hes He) as ([u v] & Hz & Huv).
  apply zip_consecutive_lookup in Hz as [Hu Hv]. eauto.
Qed.

Lemma turn_step_junction G path es i acc r :
  route_edges_of G path = Ok es →
  turn_step G path es i acc = Ok r →
  ∃ out, r = acc ++ out ∧ junction G path i out.
Proof.
  intros Hes E. unfold turn_step in E. inv_bind E.
  rename a into prev, a0 into dp, a1 into curr, a2 into dc, a3 into next,
    a4 into dn, a5 into e, a6 into street.
  apply list_getitem_Ok in Ha, Ha1, Ha3, Ha5.
  apply nodes_getitem_Ok in Ha0, Ha2, Ha4.
  destruct (route_edges_lookup _ _ _ _ _ Hes Ha5) as (u & v & Hu & Hv & Hedge).
  rewrite Ha1 in Hu. injection Hu as <-.
  replace (i + 1)%nat with (S i) in Ha3 by lia.
  rewrite Ha3 in Hv. injection Hv as <-.
  set (b1 := calculate_bearing (node_y dp) (node_x dp) (node_y dc) (node_x dc)) in *.
  set (b2 := calculate_bearing (node_y dc) (node_x dc) (node_y dn) (node_x dn)) in *.
  destruct (calculate_bearing_range (node_y dp) (node_x dp) (node_y dc) (node_x dc))
    as [Hb1 Hb1'].
  destruct (calculate_bearing_range (node_y dc) (node_x dc) (node_y dn) (node_x dn))
    as [Hb2 Hb2'].
  destruct (turn_angle_bounds b1 b2 Hb1 Hb1' Hb2 Hb2') as [Hlo Hhi].
  destruct (get_turn_instruction_classify _ Hlo Hhi) as (cls & Hcls & Htext).
  rewrite Htext in E.
  exists (emitted cls street (length_of e)). split.
  - case_bool_decide as Hs; injection E as <-.
    + destruct cls; simpl; try reflexivity. by destruct Hs.
    + apply turn_text_straight in Hs as ->.
      simpl. by rewrite app_nil_r.
  - exists prev, curr, next, dp, dc, dn, e, street, cls.
    replace (i + 1)%nat with (S i) by lia. done.
Qed.


End Directions.

(** ** The path search *)

Module PathSearchFacts.
Import PathSearch.

Lemma elem_of_incident G u v w :
  (v, w) ∈ incident G u ↔
  ∃ e, e ∈ edges G ∧ w = weight e
       ∧ ((edge_u e = u ∧ edge_v e = v) ∨ (edge_v e = u ∧ edge_u e = v)).
Proof.
  unfold incident. rewrite list_elem_of_bind. split.
  - intros (e & Hin & He). exists e. split; [done |].
    apply elem_of_app in Hin as [Hin | Hin].
    + destruct (Z.eqb_spec (edge_u e) u); [| by apply elem_of_nil in Hin].
      apply list_elem_of_singleton in Hin. injection Hin as -> ->. auto.
    + destruct (Z.eqb_spec (edge_v e) u); [| by apply elem_of_nil in Hin].
      apply list_elem_of_singleton in Hin. injection Hin as -> ->. auto.
  - intros (e & He & -> & [[<- <-] | [<- <-]]); exists e; (split; [| done]);
      apply elem_of_app; [left | right]; rewrite Z.eqb_refl;
      by apply list_elem_of_singleton.
Qed.

Lemma incident_sym G u v w : (v, w) ∈ incident G u → (u, w) ∈ incident G v.
Proof. rewrite !elem_of_incident. intros (e & ? & ? & [[] | []]); eauto 10. Qed.

Lemma incident_nonneg G u v w :
  nonneg_weights G → (v, w) ∈ incident G u → 0 <= w.
Proof. intros HG (e & He & -> & _)%elem_of_incident. by apply HG. Qed.

Lemma pop_min_None fringe : pop_min fringe = None → fringe = [].
Proof.
  destruct fringe as [| en rest]; [done |]. simpl.
  destruct (pop_min rest) as [[m rest'] |]; [| done].
  by destruct (Qle_bool (key en) (key m)).
Qed.

Lemma pop_min_Some fringe m rest :
  pop_min fringe = Some (m, rest) →
  (∀ en, en ∈ fringe ↔ en = m ∨ en ∈ rest)
  ∧ (∀ en, en ∈ fringe → key m <= key en)
  ∧ length fringe = S (length rest).
Proof.
  revert m rest. induction fringe as [| en fringe IH]; intros m rest E; [done |].
  simpl in E. destruct (pop_min fringe) as [[m' rest'] |] eqn:Epop.
  - destruct (IH _ _ eq_refl) as (Hmem & Hmin & Hlen).
    destruct (Qle_bool (key en) (key m')) eqn:Ecmp; injection E as <- <-.
    + apply Qle_bool_true in Ecmp. split; [| split; [| done]].
      * intros x. by rewrite elem_of_cons.
      * intros x [-> | Hx]%elem_of_cons; [apply Qle_refl |].
        eapply Qle_trans; [exact Ecmp | by apply Hmin].
    + apply Qle_bool_false in Ecmp. split; [| split; [| simpl; lia]].
      * intros x. rewrite !elem_of_cons, Hmem. tauto.
      * intros x [-> | Hx]%elem_of_cons; [by apply Qlt_le_weak | by apply Hmin].
  - apply pop_min_None in Epop as ->. injection E as <- <-.
    split; [| split; [| done]].
    + intros x. rewrite elem_of_cons. tauto.
    + intros x [-> | Hx]%elem_of_cons; [apply Qle_refl | by apply elem_of_nil in Hx].
Qed.

Lemma elem_of_relax G dist d v back en :
  en ∈ relax G dist d v back ↔
  ∃ u w, en = (d + w, u, u :: back) ∧ (u, w) ∈ incident G v ∧ dist !! u = None.
Proof.
  unfold relax. rewrite list_elem_of_fmap. split.
  - intros ([u w] & -> & [Hf Hin]%list_elem_of_filter). eauto.
  - intros (u & w & -> & Hin & Hf). exists (u, w). split; [done |].
    by apply list_elem_of_filter.
Qed.

Section Invariant.
Context (G : MultiGraph) (s target : Z).
Hypothesis weights : nonneg_weights G.

(** A walk ends at a settled node or has crossed the queue. *)
Lemma walk_meets_fringe dist fringe v c back :
  search_inv G s target dist fringe → walk G s v c back →
  is_Some (dist !! v) ∨ ∃ d' x back', (d', x, back') ∈ fringe ∧ d' <= c.
Proof.
  intros I. induction 1 as [| u c back v w Hwalk IH Hin].
  - destruct (inv_start _ _ _ _ _ I) as [? | (d & b & ? & ?)]; eauto 10.
  - pose proof (incident_nonneg _ _ _ _ weights Hin) as Hw.
    destruct IH as [[du Hdu] | (d' & x & b & Hx & Hle)].
    + pose proof (inv_opt _ _ _ _ _ I _ _ Hdu _ _ Hwalk) as Hopt.
      destruct (inv_closed _ _ _ _ _ I _ _ Hdu _ _ Hin)
        as [? | (d' & b & ? & ?)]; [by left | right].
      exists d', v, b. split; [done | lra].
    + right. exists d', x, b. split; [done | lra].
Qed.

Lemma popped_is_optimal dist fringe d v back rest c back' :
  search_inv G s target dist fringe →
  pop_min fringe = Some ((d, v, back), rest) → dist !! v = None →
  walk G s v c back' → d <= c.
Proof.
  intros I (_ & Hmin & _)%pop_min_Some Hv Hwalk.
  destruct (walk_meets_fringe _ _ _ _ _ I Hwalk) as [[? E] | (d' & x & b & Hx & Hle)].
  - congruence.
  - apply Hmin in Hx. unfold key in Hx. simpl in Hx. lra.
Qed.

Lemma search_inv_init : search_inv G s target ∅ [(0, s, [s])].
Proof.
  split.
  - intros d v back [= -> -> ->]%list_elem_of_singleton. constructor.
  - right. exists 0, [s]. split; [by apply list_elem_of_singleton | apply Qle_refl].
  - intros u du E. by rewrite lookup_empty in E.
  - intros u du E. by rewrite lookup_empty in E.
  - apply lookup_empty.
Qed.

Lemma search_inv_skip dist fringe d v back rest :
  search_inv G s target dist fringe →
  pop_min fringe = Some ((d, v, back), rest) → is_Some (dist !! v) →
  search_inv G s target dist rest.
Proof.
  intros I (Hmem & _ & _)%pop_min_Some Hv. split.
  - intros d' v' b Hin. apply (inv_walk _ _ _ _ _ I). apply Hmem. by right.
  - destruct (inv_start _ _ _ _ _ I) as [? | (d0 & b & Hin & Hle)]; [by left |].
    apply Hmem in Hin as [[= -> -> ->] | Hin]; [by left | right; eauto].
  - apply (inv_opt _ _ _ _ _ I).
  - intros u du Hu x w Hx.
    destruct (inv_closed _ _ _ _ _ I _ _ Hu _ _ Hx) as [? | (d' & b & Hin & Hle)];
      [by left |].
    apply Hmem in Hin as [[= -> -> ->] | Hin]; [by left | right; eauto].
  - apply (inv_target _ _ _ _ _ I).
Qed.

Lemma search_inv_settle dist fringe d v back rest :
  search_inv G s target dist fringe →
  pop_min fringe = Some ((d, v, back), rest) → dist !! v = None → v ≠ target →
  search_inv G s target (<[v := d]> dist)
             (rest ++ relax G (<[v := d]> dist) d v back).
Proof.
  intros I Hpop Hv Hvt. pose proof (pop_min_Some _ _ _ Hpop) as (Hmem & _ & _).
  assert (Hkeep : ∀ x, is_Some (dist !! x) → is_Some (<[v := d]> dist !! x)).
  { intros x Hx. destruct (decide (v = x)) as [-> | Hne].
    - rewrite lookup_insert_eq. eauto.
    - by rewrite lookup_insert_ne. }
  assert (Hpopped : walk G s v d back).
  { apply (inv_walk _ _ _ _ _ I). apply Hmem. by left. }
  split.
  - intros d' v' b [Hin | Hin]%elem_of_app.
    + apply (inv_walk _ _ _ _ _ I). apply Hmem. by right.
    + apply elem_of_relax in Hin as (u & w & [= -> -> ->] & Hin & _).
      by econstructor.
  - destruct (inv_start _ _ _ _ _ I) as [? | (d0 & b & Hin & Hle)]; [left; auto |].
    apply Hmem in Hin as [[= -> -> ->] | Hin].
    + left. rewrite lookup_insert_eq. eauto.
    + right. exists d0, b. split; [apply elem_of_app; by left | done].
  - intros u du Hu c b Hwalk. destruct (decide (v = u)) as [<- | Hne].
    + rewrite lookup_insert_eq in Hu. injection Hu as <-.
      eapply popped_is_optimal; eauto.
    + rewrite lookup_insert_ne in Hu by done.
      by eapply (inv_opt _ _ _ _ _ I).
  - intros u du Hu x w Hx. destruct (decide (v = u)) as [<- | Hne].
    + rewrite lookup_insert_eq in Hu. injection Hu as <-.
      destruct (<[v := d]> dist !! x) as [dx |] eqn:Ex; [left; eauto | right].
      exists (d + w), (x :: back). split; [| apply Qle_refl].
      apply elem_of_app. right. apply elem_of_relax. eauto.
    + rewrite lookup_insert_ne in Hu by done.
      destruct (inv_closed _ _ _ _ _ I _ _ Hu _ _ Hx) as [? | (d' & b & Hin & Hle)];
        [left; auto |].
      apply Hmem in Hin as [[= -> -> ->] | Hin].
      * left. rewrite lookup_insert_eq. eauto.
      * right. exists d', b. split; [apply elem_of_app; by left | done].
  - rewrite lookup_insert_ne by done. apply (inv_target _ _ _ _ _ I).
Qed.

(** What the search answers is right: a distance with a walk of that
    weight which no walk beats, or the absence of any walk. *)
Lemma search_correct fuel dist fringe r :
  search_inv G s target dist fringe →
  search fuel G target dist fringe = Some r →
  match r with
  | Ok (d, p) => walk G s target d (reverse p)
                 ∧ ∀ c back, walk G s target c back → d <= c
  | Raise e => e = NetworkXNoPath ∧ ¬ connected G s target
  end.
Proof.
  revert dist fringe. induction fuel as [| fuel IH]; intros dist fringe I E; [done |].
  simpl in E. destruct (pop_min fringe) as [[[[d v] back] rest] |] eqn:Hpop.
  - destruct (decide (is_Some (dist !! v))) as [Hv | Hv].
    + eapply IH; [| exact E]. by eapply search_inv_skip.
    + apply eq_None_not_Some in Hv.
      destruct (decide (v = target)) as [-> | Hvt].
      * injection E as <-. rewrite reverse_involutive. split.
        -- apply (inv_walk _ _ _ _ _ I).
           apply (pop_min_Some _ _ _ Hpop). by left.
        -- intros c b Hwalk. eapply popped_is_optimal; eauto.
      * eapply IH; [| exact E]. by eapply search_inv_settle.
  - injection E as <-. apply pop_min_None in Hpop as ->. split; [done |].
    intros (c & b & Hwalk).
    destruct (walk_meets_fringe _ _ _ _ _ I Hwalk) as [[? E] | (? & ? & ? & Hin & _)].
    + rewrite (inv_target _ _ _ _ _ I) in E. discriminate.
    + by apply elem_of_nil in Hin.
Qed.
End Invariant.

Lemma unsettled_ends_settle G dist v d :
  dist !! v = None →
  (unsettled_ends G (<[v := d]> dist) + length (incident G v))%nat
  = unsettled_ends G dist.
Proof.
  intros Hv. unfold unsettled_ends, incident.
  induction (edges G) as [| e es IH]; [done |].
  rewrite !filter_cons, bind_cons, length_app, length_app.
  assert (Hend : ∀ a,
    ((if decide (<[v := d]> dist !! a = None) then 1 else 0)
     + (if Z.eqb a v then 1 else 0))%nat
    = if decide (dist !! a = None) then 1%nat else 0%nat).
  { intros a. destruct (Z.eqb_spec a v) as [-> | Hne].
    - rewrite lookup_insert_eq, Hv. by rewrite !decide_False, decide_True by done.
    - rewrite lookup_insert_ne by done. destruct (decide (dist !! a = None)); lia. }
  pose proof (Hend (edge_u e)) as Hu. pose proof (Hend (edge_v e)) as Hw.
  repeat case_decide; destruct (Z.eqb (edge_u e) v), (Z.eqb (edge_v e) v);
    simpl in *; lia.
Qed.

Lemma length_relax G dist d v back :
  (length (relax G dist d v back) ≤ length (incident G v))%nat.
Proof. unfold relax. rewrite length_fmap. apply length_filter. Qed.

(** The search answers before the fuel runs out. *)
Lemma search_fuel G target fuel dist fringe :
  (length fringe + unsettled_ends G dist < fuel)%nat →
  is_Some (search fuel G target dist fringe).
Proof.
  revert dist fringe. induction fuel as [| fuel IH]; intros dist fringe Hm; [lia |].
  simpl. destruct (pop_min fringe) as [[[[d v] back] rest] |] eqn:Hpop; [| eauto].
  apply pop_min_Some in Hpop as (_ & _ & Hlen).
  destruct (decide (is_Some (dist !! v))) as [Hv | Hv].
  - apply IH. lia.
  - apply eq_None_not_Some in Hv. destruct (decide (v = target)); [eauto |].
    apply IH. rewrite length_app.
    pose proof (length_relax G (<[v := d]> dist) d v back).
    pose proof (unsettled_ends_settle G dist v d Hv). lia.
Qed.

Lemma search_enough_fuel G s target :
  is_Some (search (enough_fuel G) G target ∅ [(0, s, [s])]).
Proof.
  apply search_fuel. unfold enough_fuel.
  assert (unsettled_ends G ∅ ≤ length (edges G) + length (edges G))%nat
    by (apply Nat.add_le_mono; apply length_filter).
  simpl. lia.
Qed.

(** *** Walks *)

Lemma walk_ends G s t c back :
  walk G s t c back → head back = Some t ∧ last back = Some s.
Proof.
  induction 1 as [| u c back v w _ [Hh Hl] _]; [done |]. split; [done |].
  destruct back; [done | exact Hl].
Qed.

Lemma walk_nonneg G s t c back : nonneg_weights G → walk G s t c back → 0 <= c.
Proof.
  intros HG. induction 1 as [| u c back v w _ IH Hin]; [apply Qle_refl |].
  pose proof (incident_nonneg _ _ _ _ HG Hin). lra.
Qed.

(** A walk from [u] can be entered from a neighbour [s] of [u]. *)
Lemma walk_prepend G s u t c back w :
  (u, w) ∈ incident G s → walk G u t c back →
  ∃ c', walk G s t c' (back ++ [s]) ∧ c' == w + c.
Proof.
  intros Hs. induction 1 as [| x c back v w' _ (c1 & Hwalk & Hc) Hin].
  - exists (0 + w). split; [| ring].
    change ([u] ++ [s]) with (u :: [s]). econstructor; [constructor | done].
  - exists (c1 + w'). split; [| rewrite Hc; ring].
    change ((v :: back) ++ [s]) with (v :: (back ++ [s])). by econstructor.
Qed.

(** The graph is undirected: a walk can be walked back, at the same cost. *)
Lemma walk_reverse G s t c back :
  walk G s t c back → ∃ c' back', walk G t s c' back' ∧ c' == c.
Proof.
  induction 1 as [| u c back v w _ (c1 & back1 & Hwalk & Hc) Hin].
  - exists 0, [s]. split; [constructor | reflexivity].
  - destruct (walk_prepend _ _ _ _ _ _ _ (incident_sym _ _ _ _ Hin) Hwalk)
      as (c2 & Hwalk2 & Hc2).
    exists c2, (back1 ++ [v]). split; [done |]. rewrite Hc2, Hc. ring.
Qed.

Lemma connected_sym G a b : connected G a b → connected G b a.
Proof. intros (c & back & H). destruct (walk_reverse _ _ _ _ _ H) as (? & ? & ? & _). red. eauto. Qed.

(** *** The contract of [ShortestPath] *)

Lemma ShortestPath_Ok G s t d p :
  nonneg_weights G → ShortestPath G s t = Ok (d, p) →
  is_Some (nodes G !! s) ∧ is_Some (nodes G !! t)
  ∧ walk G s t d (reverse p)
  ∧ ∀ c back, walk G s t c back → d <= c.
Proof.
  intros HG E. unfold ShortestPath in E.
  destruct (decide _) as [[Hs Ht] | _]; [| done].
  destruct (search _ _ _ _ _) as [r |] eqn:Es; [subst r | done].
  pose proof (search_correct G s t HG _ _ _ _ (search_inv_init G s t) Es) as Hr.
  simpl in Hr. tauto.
Qed.

Lemma ShortestPath_connected G s t :
  nonneg_weights G → is_Some (nodes G !! s) → is_Some (nodes G !! t) →
  connected G s t → ∃ d p, ShortestPath G s t = Ok (d, p).
Proof.
  intros HG Hs Ht Hc. unfold ShortestPath. rewrite decide_True by done.
  destruct (search_enough_fuel G s t) as [r Es]. rewrite Es.
  pose proof (search_correct G s t HG _ _ _ _ (search_inv_init G s t) Es) as Hr.
  destruct r as [[d p] | e]; [eauto | by destruct Hr].
Qed.

Lemma ShortestPath_no_path G s t :
  nonneg_weights G → is_Some (nodes G !! s) → is_Some (nodes G !! t) →
  ¬ connected G s t → ShortestPath G s t = Raise NetworkXNoPath.
Proof.
  intros HG Hs Ht Hc. unfold ShortestPath. rewrite decide_True by done.
  destruct (search_enough_fuel G s t) as [r Es]. rewrite Es.
  pose proof (search_correct G s t HG _ _ _ _ (search_inv_init G s t) Es) as Hr.
  destruct r as [[d p] | e]; [| by destruct Hr as [-> _]].
  destruct Hr as [Hwalk _]. destruct Hc. red. eauto.
Qed.

Lemma ShortestPath_same G a :
  is_Some (nodes G !! a) → ShortestPath G a a = Ok (0, [a]).
Proof.
  intros Ha. unfold ShortestPath, enough_fuel. rewrite decide_True by done.
  replace (2 * length (edges G) + 2)%nat with (S (2 * length (edges G) + 1)) by lia.
  simpl. rewrite lookup_empty. rewrite decide_False by (by intros []).
  by rewrite decide_True.
Qed.

Lemma ShortestPath_ends G s t d p :
  nonneg_weights G → ShortestPath G s t = Ok (d, p) →
  head p = Some s ∧ last p = Some t.
Proof.
  intros HG (_ & _ & Hwalk & _)%ShortestPath_Ok; [| done].
  apply walk_ends in Hwalk as [Hh Hl].
  rewrite head_reverse in Hh. rewrite last_reverse in Hl. done.
Qed.

End PathSearchFacts.

(** ** Example runs *)

Lemma coarse_math_at_zero : MathLibAtZero coarse_math.
Proof.
  split; simpl.
  - auto.
  - reflexivity.
  - intros y x Hy Hx. unfold coarse_atan2.
    apply Qeq_bool_iff in Hy as ->.
    assert (Hle : 0 <= x) by (rewrite Hx; apply Qle_refl).
    apply Qle_bool_true in Hle as ->. reflexivity.
Qed.

Lemma corner_graph_nonneg : PathSearch.nonneg_weights corner_graph.
Proof.
  intros e He. unfold corner_graph in He. simpl in He.
  repeat (apply elem_of_cons in He as [-> | He]; [vm_compute; discriminate |]).
  by apply elem_of_nil in He.
Qed.

Lemma corner_graph_connected_1_3 : PathSearch.connected corner_graph 1 3.
Proof.
  exists (0 + 200), [3%Z; 1%Z]. econstructor; [constructor |].
  apply PathSearchFacts.elem_of_incident.
  exists (mk_edge 1 3 0 None 200). split; [| split; [reflexivity | left; done]].
  unfold corner_graph. simpl. repeat constructor.
Qed.

Lemma bearing_of_point_to_itself_witness :
  @calculate_bearing coarse_math (2231 # 100) (8731 # 100) (2231 # 100) (8731 # 100) == 0.
Proof. exact (@bearing_of_point_to_itself coarse_math coarse_math_at_zero _ _). Defined.



(** ** The request handler *)

Lemma Forall2_last_l {A B} (P : A → B → Prop) l k x :
  Forall2 P l k → last l = Some x → ∃ y, last k = Some y ∧ P x y.
Proof.
  induction 1 as [| a b l k Hab HF IH]; [done |].
  destruct HF as [| a' b' l' k' Hab' HF'].
  - intros [= <-]. eauto.
  - intros Hl. apply IH. exact Hl.
Qed.

Section HandlerFacts.
Context {M : MathLib} {L : RoutingLib}.

Lemma directions_of_short G path :
  (length path < 2)%nat → directions_of G path = Ok [].
Proof.
  intros Hlen. unfold directions_of.
  by destruct (Nat.ltb_spec (length path) 2) as [_ | ?]; [| lia].
Qed.

(** C6: when source and destination both resolve to a node A of the graph,
    for which the path search answers the sequence [A] and the length 0, the
    handler returns the one coordinate pair of A, the distance 0 and no
    directions; and a node sequence of fewer than 2 nodes always gives the
    empty directions list, without any exception. *)
Theorem same_node_gives_single_point G data A dA zero :
  nearest_nodes G (lon (source data)) (lat (source data)) = Ok A →
  nearest_nodes G (lon (target data)) (lat (target data)) = Ok A →
  nodes G !! A = Some dA →
  shortest_path G A A = Ok [A] →
  shortest_path_length G A A = Ok zero → zero == 0 →
  (∃ resp, get_path G data = Ok resp
           ∧ resp_path resp = [(node_y dA, node_x dA)]
           ∧ resp_distance resp == 0
           ∧ resp_directions resp = [])
  ∧ ∀ path, (length path < 2)%nat → directions_of G path = Ok [].
Proof.
  intros Hsrc Hdst HA Hpath Hlen Hzero. split; [| apply directions_of_short].
  unfold get_path. simpl. rewrite Hsrc. simpl. rewrite Hdst. simpl.
  rewrite Hpath. simpl. unfold nodes_getitem. rewrite HA. simpl.
  rewrite Hlen. simpl.
  eexists. split; [reflexivity |]. split; [done |]. split; [| done].
  simpl. unfold py_round2.
  assert (Hz : zero * 100 == inject_Z 0) by (rewrite Hzero; reflexivity).
  unfold py_round. rewrite (Qfloor_comp _ _ Hz), Qfloor_Z.
  destruct (Qcompare_spec (zero * 100 - inject_Z 0) (1 # 2)) as [E | E | E].
  - exfalso. rewrite Hz in E. discriminate E.
  - reflexivity.
  - exfalso. rewrite Hz in E. discriminate E.
Qed.

(** C10: the path of a successful answer lists, in order and one for one,
    the (y, x) coordinates of the nodes of the computed shortest path; the
    path search answering a sequence from its source to its target, the
    first and last pairs are the coordinates of the nodes that
    [nearest_nodes] resolves the requested source and target to. *)
Theorem path_lists_node_coordinates G data resp :
  (∀ s t p, shortest_path G s t = Ok p → head p = Some s ∧ last p = Some t) →
  get_path G data = Ok resp →
  ∃ src_node dst_node path_nodes dsrc ddst,
    nearest_nodes G (lon (source data)) (lat (source data)) = Ok src_node
    ∧ nearest_nodes G (lon (target data)) (lat (target data)) = Ok dst_node
    ∧ shortest_path G src_node dst_node = Ok path_nodes
    ∧ Forall2 (λ n c, ∃ d, nodes G !! n = Some d ∧ c = (node_y d, node_x d))
              path_nodes (resp_path resp)
    ∧ length (resp_path resp) = length path_nodes
    ∧ nodes G !! src_node = Some dsrc ∧ nodes G !! dst_node = Some ddst
    ∧ head (resp_path resp) = Some (node_y dsrc, node_x dsrc)
    ∧ last (resp_path resp) = Some (node_y ddst, node_x ddst).
Proof.
  intros Hends E. unfold get_path in E. simpl in E. inv_bind E.
  rename a into src_node, a0 into dst_node, a1 into path_nodes, a2 into coords.
  injection E as <-. simpl.
  apply mapM_Ok in Ha2.
  assert (HF : Forall2 (λ n c, ∃ d, nodes G !! n = Some d ∧ c = (node_y d, node_x d))
                       path_nodes coords).
  { eapply Forall2_impl; [exact Ha2 |]. intros n c Hn. simpl in Hn. inv_bind Hn.
    apply nodes_getitem_Ok in Ha5. injection Hn as <-. eauto. }
  destruct (Hends _ _ _ Ha1) as [Hh Hl].
  assert (Hhead : ∃ d, nodes G !! src_node = Some d
                       ∧ head coords = Some (node_y d, node_x d)).
  { destruct HF as [| n c ns cs (d & Hd & ->) _]; [done |].
    injection Hh as ->. eauto. }
  assert (Hlast : ∃ d, nodes G !! dst_node = Some d
                       ∧ last coords = Some (node_y d, node_x d)).
  { destruct (Forall2_last_l _ _ _ _ HF Hl) as (c & -> & d & Hd & ->). eauto. }
  destruct Hhead as (dsrc & ? & ?), Hlast as (ddst & ? & ?).
  exists src_node, dst_node, path_nodes, dsrc, ddst.
  repeat split; try done. symmetry. by eapply Forall2_length.
Qed.
End HandlerFacts.

(** ** The nearest node *)

Section SpatialIndexFacts.
Import PathSearch.
Context {M : MathLib}.

Lemma closer_true X Y a b :
  closer X Y a b = true ↔
  sq_dist X Y (snd a) < sq_dist X Y (snd b)
  ∨ (sq_dist X Y (snd a) <= sq_dist X Y (snd b) ∧ (fst a < fst b)%Z).
Proof.
  unfold closer.
  rewrite orb_true_iff, andb_true_iff, Qltb_true, Qle_bool_true, Z.ltb_lt. done.
Qed.

(** The scan keeps a candidate that no candidate seen so far beats. *)
Lemma scan_keeps_best X Y (others : list (Z * node_data)) first :
  let best := foldl (λ best c, if closer X Y c best then c else best) first others in
  best ∈ first :: others
  ∧ ∀ c, c ∈ first :: others →
         sq_dist X Y (snd best) <= sq_dist X Y (snd c)
         ∧ (sq_dist X Y (snd c) <= sq_dist X Y (snd best) → (fst best ≤ fst c)%Z).
Proof.
  revert first. induction others as [| c others IH]; intros first; simpl.
  - split; [left |]. intros c [-> | Hc%elem_of_nil]%elem_of_cons; [| done].
    split; [apply Qle_refl | lia].
  - destruct (IH (if closer X Y c first then c else first)) as [Hin Hbest].
    set (best := foldl _ _ others) in *. split.
    + apply elem_of_cons in Hin as [-> | Hin]; [| right; by right].
      destruct (closer X Y c first); [right; left | left].
    + assert (Hnew : ∀ x, x = first ∨ x = c →
        sq_dist X Y (snd (if closer X Y c first then c else first))
        <= sq_dist X Y (snd x)
        ∧ (sq_dist X Y (snd x)
           <= sq_dist X Y (snd (if closer X Y c first then c else first)) →
           (fst (if closer X Y c first then c else first) ≤ fst x)%Z)).
      { intros x Hx. destruct (closer X Y c first) eqn:E.
        - apply closer_true in E.
          destruct Hx as [-> | ->]; [| split; [apply Qle_refl | lia]].
          destruct E as [E | [E1 E2]]; split; try lra; intros; try lia; exfalso; lra.
        - assert (E' : ¬ (sq_dist X Y (snd c) < sq_dist X Y (snd first)
                          ∨ (sq_dist X Y (snd c) <= sq_dist X Y (snd first)
                             ∧ (fst c < fst first)%Z)))
            by (rewrite <- closer_true, E; discriminate).
          destruct Hx as [-> | ->]; [split; [apply Qle_refl | lia] |].
          split.
          + apply Qnot_lt_le. tauto.
          + intros Hle. apply Z.nlt_ge. tauto. }
      destruct (Hbest (if closer X Y c first then c else first)) as [Hb1 Hb2]; [left |].
      intros x [-> | [-> | Hx]%elem_of_cons]%elem_of_cons.
      * destruct (Hnew first) as [H1 H2]; [by left |]. split; [lra |].
        intros Hle. assert (H3 := H2 ltac:(lra)). assert (H4 := Hb2 ltac:(lra)). lia.
      * destruct (Hnew c) as [H1 H2]; [by right |]. split; [lra |].
        intros Hle. assert (H3 := H2 ltac:(lra)). assert (H4 := Hb2 ltac:(lra)). lia.
      * apply Hbest. by right.
Qed.

(** [Nearest] answers a node of the graph at minimal distance from the
    point, the one of lowest identifier among those. *)
Lemma Nearest_minimal G X Y n :
  Nearest G X Y = Ok n →
  ∃ d, nodes G !! n = Some d
       ∧ ∀ n' d', nodes G !! n' = Some d' →
                  sq_dist X Y d <= sq_dist X Y d'
                  ∧ (sq_dist X Y d' <= sq_dist X Y d → (n ≤ n')%Z).
Proof.
  unfold Nearest. destruct (map_to_list (nodes G)) as [| first others] eqn:El; [done |].
  intros [= <-]. destruct (scan_keeps_best X Y others first) as [Hin Hbest].
  set (best := foldl _ _ others) in *. rewrite <- El in Hin, Hbest.
  exists (snd best). split.
  - apply elem_of_map_to_list. by destruct best.
  - intros n' d' Hn'. apply (Hbest (n', d')). by apply elem_of_map_to_list.
Qed.

Lemma Nearest_empty G X Y : nodes G = ∅ → Nearest G X Y = Raise EmptyIndexError.
Proof. intros E. unfold Nearest. by rewrite E, map_to_list_empty. Qed.
End SpatialIndexFacts.

(** ** Symmetry and parallel edges *)

Section SearchClaims.
Import PathSearch PathSearchFacts.
Context {M : MathLib}.

(** C7: on the undirected graph, for nodes A and B reachable from each
    other, the path search answers in both directions and the two total
    distances are equal. *)
Theorem shortest_distance_symmetric G A B :
  nonneg_weights G →
  is_Some (nodes G !! A) → is_Some (nodes G !! B) →
  connected G A B → connected G B A →
  ∃ dAB dBA,
    @shortest_path_length routing G A B = Ok dAB
    ∧ @shortest_path_length routing G B A = Ok dBA
    ∧ dAB == dBA.
Proof.
  intros HG HA HB HAB HBA.
  destruct (ShortestPath_connected G A B HG HA HB HAB) as (d1 & p1 & E1).
  destruct (ShortestPath_connected G B A HG HB HA HBA) as (d2 & p2 & E2).
  exists d1, d2. simpl. rewrite E1, E2. simpl. split; [done |]. split; [done |].
  destruct (ShortestPath_Ok _ _ _ _ _ HG E1) as (_ & _ & W1 & O1).
  destruct (ShortestPath_Ok _ _ _ _ _ HG E2) as (_ & _ & W2 & O2).
  destruct (walk_reverse _ _ _ _ _ W1) as (c1 & b1 & R1 & Hc1).
  destruct (walk_reverse _ _ _ _ _ W2) as (c2 & b2 & R2 & Hc2).
  apply O2 in R1. apply O1 in R2. apply Qle_antisym; lra.
Qed.

Lemma edge_data_0_key G u v a :
  edge_data_0 G u v = Ok a →
  ∃ e, e ∈ edges G ∧ joins u v e = true ∧ edge_key e = 0%Z ∧ edge_attr e = a.
Proof.
  unfold edge_data_0, get_edge_data. intros E.
  destruct (filter _ (edges G)) as [| e0 es] eqn:Hf; [done |].
  destruct (list_to_map _ !! 0%Z) as [a' |] eqn:Hl; [| done]. injection E as ->.
  apply elem_of_list_to_map_2 in Hl.
  apply list_elem_of_fmap in Hl as (e & [= Hk Ha] & He).
  rewrite <- Hf in He. apply list_elem_of_filter in He as [Hj He]. eauto.
Qed.

(** Where the two records of a leg come from: the attributes read for the
    instructions are those of an edge stored under key 0, and the distance
    of the path search is at most the length of every parallel edge. *)
Lemma parallel_edges_key_0_and_minimum G u v :
  (∀ a, edge_data_0 G u v = Ok a →
        ∃ e, e ∈ edges G ∧ joins u v e = true ∧ edge_key e = 0%Z ∧ edge_attr e = a)
  ∧ (∀ path es i a,
       route_edges_of G path = Ok es → es !! i = Some a →
       ∃ x y e, path !! i = Some x ∧ path !! S i = Some y
                ∧ e ∈ edges G ∧ joins x y e = true ∧ edge_key e = 0%Z
                ∧ edge_attr e = a)
  ∧ (nonneg_weights G →
     ∀ d p, ShortestPath G u v = Ok (d, p) →
     ∀ e, e ∈ edges G → joins u v e = true → d <= weight e).
Proof.
  split; [apply edge_data_0_key |]. split.
  - intros path es i a Hes Ha.
    destruct (route_edges_lookup _ _ _ _ _ Hes Ha) as (x & y & Hx & Hy & E).
    destruct (edge_data_0_key _ _ _ _ E) as (e & ? & ? & ? & ?).
    exists x, y, e. done.
  - intros HG d p E e He Hj.
    destruct (ShortestPath_Ok _ _ _ _ _ HG E) as (_ & _ & _ & Hopt).
    assert (Hin : (v, weight e) ∈ incident G u).
    { apply elem_of_incident. exists e. split; [done |]. split; [done |].
      unfold joins in Hj.
      apply orb_true_iff in Hj as [[?%Z.eqb_eq ?%Z.eqb_eq]%andb_true_iff
                                  | [?%Z.eqb_eq ?%Z.eqb_eq]%andb_true_iff]; auto. }
    pose proof (Hopt _ _ (walk_edge _ _ _ _ _ _ _ (walk_start G u) Hin)). lra.
Qed.
End SearchClaims.

Lemma parallel_graph_nonneg : PathSearch.nonneg_weights parallel_graph.
Proof.
  intros e He. unfold parallel_graph in He. simpl in He.
  repeat (apply elem_of_cons in He as [-> | He]; [vm_compute; discriminate |]).
  by apply elem_of_nil in He.
Qed.

Lemma shortest_distance_symmetric_witness :
  ∃ dAB dBA,
    @shortest_path_length (@PathSearch.routing coarse_math) corner_graph 1 3 = Ok dAB
    ∧ @shortest_path_length (@PathSearch.routing coarse_math) corner_graph 3 1 = Ok dBA
    ∧ dAB == dBA.
Proof.
  apply shortest_distance_symmetric.
  - exact corner_graph_nonneg.
  - vm_compute. eauto.
  - vm_compute. eauto.
  - exact corner_graph_connected_1_3.
  - apply PathSearchFacts.connected_sym. exact corner_graph_connected_1_3.
Defined.

(** C8, at two nodes joined by two parallel edges: the handler prices the
    leg by the shortest edge, 40 long, and describes it by the edge under
    key 0, "Long Road", 100 long, which is not the shortest one. *)
Theorem key_0_edge_is_not_the_shortest :
  (∃ resp,
     @get_path coarse_math (@PathSearch.routing coarse_math) parallel_graph
       (mk_request 0 0 0 (1 # 1000)) = Ok resp
     ∧ resp_path resp = [(0, 0); (0, 1 # 1000)]
     ∧ resp_distance resp == 40
     ∧ resp_directions resp
       = [ {| instruction := "Head toward <strong>Long Road</strong>";
              distance := 100 |} ])
  ∧ edge_data_0 parallel_graph 1 2
    = Ok {| attr_name := Some (NameStr "Long Road"); attr_length := Some 100 |}
  ∧ @directions_of coarse_math parallel_graph [1%Z; 2%Z]
    = Ok [ {| instruction := "Head toward <strong>Long Road</strong>";
              distance := 100 |} ]
  ∧ ¬ of_shortest_parallel_edge parallel_graph 1 2
        {| attr_name := Some (NameStr "Long Road"); attr_length := Some 100 |}
  ∧ of_shortest_parallel_edge parallel_graph 1 2
      {| attr_name := Some (NameStr "Short Lane"); attr_length := Some 40 |}
  ∧ (∃ d, @shortest_path_length (@PathSearch.routing coarse_math) parallel_graph 1 2
          = Ok d
          ∧ d == 40).
Proof.
  split.
  { eexists. split; [vm_compute; reflexivity |].
    split; [reflexivity |]. split; reflexivity. }
  split; [vm_compute; reflexivity |]. split; [vm_compute; reflexivity |].
  split; [| split].
  - intros (e & He & Hj & Ha & Hmin).
    specialize (Hmin (mk_edge 1 2 1 (Some (NameStr "Short Lane")) 40)).
    rewrite Ha in Hmin.
    assert (Hle : 100 <= 40); [| vm_compute in Hle; by apply Hle].
    apply Hmin; [| reflexivity].
    unfold parallel_graph. simpl. repeat constructor.
  - exists (mk_edge 1 2 1 (Some (NameStr "Short Lane")) 40).
    split; [unfold parallel_graph; simpl; repeat constructor |].
    split; [reflexivity |]. split; [reflexivity |].
    intros e' He' _. unfold parallel_graph in He'. simpl in He'.
    repeat (apply elem_of_cons in He' as [-> | He']; [vm_compute; discriminate |]).
    by apply elem_of_nil in He'.
  - eexists. split; [vm_compute; reflexivity | reflexivity].
Qed.

(** ** Runs of the handler *)

Lemma routing_path_ends `{M : MathLib} G s t p :
  PathSearch.nonneg_weights G →
  @shortest_path PathSearch.routing G s t = Ok p →
  head p = Some s ∧ last p = Some t.
Proof.
  intros HG E. simpl in E.
  destruct (PathSearch.ShortestPath G s t) as [[d p'] | e] eqn:Es; [| done].
  injection E as <-. by eapply PathSearchFacts.ShortestPath_ends.
Qed.

Lemma same_node_gives_single_point_witness :
  (∃ resp,
     @get_path coarse_math (@PathSearch.routing coarse_math) corner_graph
       (mk_request (1 # 10000) (9 # 10000) (-1 # 10000) (11 # 10000)) = Ok resp
     ∧ resp_path resp = [(0, 1 # 1000)]
     ∧ resp_distance resp == 0
     ∧ resp_directions resp = [])
  ∧ ∀ path, (length path < 2)%nat → @directions_of coarse_math corner_graph path = Ok [].
Proof.
  apply (@same_node_gives_single_point coarse_math (@PathSearch.routing coarse_math) corner_graph
           (mk_request (1 # 10000) (9 # 10000) (-1 # 10000) (11 # 10000))
           2 (mk_node 0 (1 # 1000)) 0).
  - vm_compute. reflexivity.
  - vm_compute. reflexivity.
  - vm_compute. reflexivity.
  - vm_compute. reflexivity.
  - vm_compute. reflexivity.
  - reflexivity.
Defined.

Lemma path_lists_node_coordinates_witness :
  ∃ resp,
    @get_path coarse_math (@PathSearch.routing coarse_math) corner_graph
      (mk_request (1 # 10000) (1 # 10000) (11 # 10000) (9 # 10000)) = Ok resp
    ∧ head (resp_path resp) = Some (0, 0)
    ∧ head (resp_path resp) ≠ Some (1 # 10000, 1 # 10000)
    ∧ ∃ src_node dst_node path_nodes dsrc ddst,
        @PathSearch.Nearest coarse_math corner_graph (1 # 10000) (1 # 10000) = Ok src_node
        ∧ @PathSearch.Nearest coarse_math corner_graph (9 # 10000) (11 # 10000) = Ok dst_node
        ∧ @shortest_path (@PathSearch.routing coarse_math) corner_graph src_node dst_node = Ok path_nodes
        ∧ Forall2 (λ n c, ∃ d, nodes corner_graph !! n = Some d
                               ∧ c = (node_y d, node_x d))
                  path_nodes (resp_path resp)
        ∧ length (resp_path resp) = length path_nodes
        ∧ nodes corner_graph !! src_node = Some dsrc
        ∧ nodes corner_graph !! dst_node = Some ddst
        ∧ head (resp_path resp) = Some (node_y dsrc, node_x dsrc)
        ∧ last (resp_path resp) = Some (node_y ddst, node_x ddst).
Proof.
  eexists. split; [vm_compute; reflexivity |].
  split; [reflexivity |]. split; [discriminate |].
  apply (@path_lists_node_coordinates coarse_math (@PathSearch.routing coarse_math) corner_graph
           (mk_request (1 # 10000) (1 # 10000) (11 # 10000) (9 # 10000))).
  - intros s t p. apply routing_path_ends, corner_graph_nonneg.
  - vm_compute. reflexivity.
Defined.

(** * Further properties of the code *)

(** ** Turn instructions *)

Lemma get_turn_instruction_proper a b :
  a == b → get_turn_instruction a = get_turn_instruction b.
Proof.
  intros H. unfold get_turn_instruction, Qltb. by rewrite !H.
Qed.

Lemma get_turn_instruction_opp a :
  get_turn_instruction (- a) = opposite_turn (get_turn_instruction a).
Proof.
  unfold get_turn_instruction. cmp_walk; reflexivity.
Qed.

(** X1: negating the turn angle swaps left and right and leaves "Continue
    straight" as it is, for every angle. *)
Theorem get_turn_instruction_mirror a :
  get_turn_instruction (- a) = opposite_turn (get_turn_instruction a)
  ∧ opposite_turn (opposite_turn (get_turn_instruction a)) = get_turn_instruction a.
Proof.
  split; [apply get_turn_instruction_opp |].
  unfold get_turn_instruction. cmp_walk; reflexivity.
Qed.

(** X2: the instruction is "Continue straight" exactly for the angles of
    [-20, 20]; every angle above 135, also above 180, is a sharp right and
    every angle below -135 a sharp left. *)
Theorem get_turn_instruction_straight_and_sharp a :
  (get_turn_instruction a = "Continue straight" ↔ -20 <= a ∧ a <= 20)
  ∧ (get_turn_instruction a = "Make a sharp right" ↔ 135 < a)
  ∧ (get_turn_instruction a = "Make a sharp left" ↔ a < -135).
Proof.
  unfold get_turn_instruction.
  cmp_walk; repeat split; try discriminate; try lra; intros; exfalso; lra.
Qed.

(** X3: between two bearings of [0, 360) the turn angle one way is the
    opposite of the turn angle the other way, and the two instructions
    mirror each other. *)
Theorem turn_angle_antisymmetric b1 b2 :
  0 <= b1 → b1 < 360 → 0 <= b2 → b2 < 360 →
  turn_angle b2 b1 == - turn_angle b1 b2
  ∧ get_turn_instruction (turn_angle b2 b1)
    = opposite_turn (get_turn_instruction (turn_angle b1 b2)).
Proof.
  intros H1 H1' H2 H2'.
  assert (Hneg : turn_angle b2 b1 == - turn_angle b1 b2).
  { destruct (turn_angle_cases b1 b2) as [(Hd & -> & Hr) | [(Hd & -> & Hr)
      | [(Hd & ->) | (Hlo & Hhi & ->)]]];
    destruct (turn_angle_cases b2 b1) as [(Hd' & -> & Hr') | [(Hd' & -> & Hr')
      | [(Hd' & ->) | (Hlo' & Hhi' & ->)]]]; lra. }
  split; [exact Hneg |].
  rewrite <- get_turn_instruction_opp. by apply get_turn_instruction_proper.
Qed.

Lemma turn_angle_antisymmetric_witness :
  turn_angle 30 300 == - turn_angle 300 30
  ∧ get_turn_instruction (turn_angle 30 300)
    = opposite_turn (get_turn_instruction (turn_angle 300 30)).
Proof.
  apply turn_angle_antisymmetric; vm_compute; (reflexivity || discriminate).
Defined.

(** ** The directions of a node sequence *)

Lemma for_each_total {A S} (body : A → S → result S) xs :
  (∀ x acc, x ∈ xs → ∃ r, body x acc = Ok r) →
  ∀ acc, ∃ r, for_each body xs acc = Ok r.
Proof.
  induction xs as [| x xs IH]; intros Hbody acc; simpl; [eauto |].
  destruct (Hbody x acc) as [r ->]; [left |]. simpl.
  apply IH. intros y acc' Hy. apply Hbody. by right.
Qed.

Lemma mapM_raise_at {A B} (f : A → result B) l i x e :
  l !! i = Some x → f x = Raise e →
  (∀ j y, (j < i)%nat → l !! j = Some y → ∃ r, f y = Ok r) →
  mapM f l = Raise e.
Proof.
  revert i. induction l as [| a l IH]; intros i Hi Hx Hbefore; [done |].
  destruct i as [| i]; simpl in *.
  - injection Hi as ->. by rewrite Hx.
  - destruct (Hbefore 0%nat a) as [r ->]; [lia | done |]. simpl.
    rewrite (IH i Hi Hx); [done |].
    intros j y Hj Hy. apply (Hbefore (S j)); [lia | done].
Qed.

Lemma concat_length_le {A} (ls : list (list A)) :
  Forall (λ l, (length l ≤ 1)%nat) ls → (length (concat ls) ≤ length ls)%nat.
Proof.
  induction 1 as [| l ls Hl _ IH]; simpl; [done |]. rewrite length_app. lia.
Qed.

Lemma length_removelast {A} (l : list A) :
  length (removelast l) = (length l - 1)%nat.
Proof.
  induction l as [| a [| b l] IH]; [done | done |].
  change (removelast (a :: b :: l)) with (a :: removelast (b :: l)).
  simpl length in *. rewrite IH. lia.
Qed.

Section DirectionsFacts.
Context {M : MathLib}.

Lemma junction_at_most_one G path i out : junction G path i out → (length out ≤ 1)%nat.
Proof.
  intros (? & ? & ? & ? & ? & ? & e & street & cls & H). destruct H as (_ & _ & _ & _ & _ & _ & _ & _ & _ & ->).
  destruct cls; simpl; lia.
Qed.

Lemma route_edges_length G path es :
  route_edges_of G path = Ok es → length es = (length path - 1)%nat.
Proof.
  intros Hes. apply mapM_Ok, Forall2_length in Hes. rewrite <- Hes.
  rewrite length_zip_with, length_removelast.
  destruct path as [| a path]; simpl; lia.
Qed.

Lemma directions_bounds G path ds :
  directions_of G path = Ok ds →
  ((length path < 2)%nat → ds = [])
  ∧ ((2 ≤ length path)%nat →
     (∃ es, route_edges_of G path = Ok es ∧ length es = (length path - 1)%nat)
     ∧ (1 ≤ length ds)%nat ∧ (length ds ≤ length path - 1)%nat).
Proof.
  intros E. split.
  - intros Hlen. rewrite directions_of_short in E by done. by injection E.
  - intros Hlen. unfold directions_of in E.
    destruct (Nat.ltb_spec (length path) 2) as [? | _]; [lia |].
    inv_bind E. rename a into es.
    split; [exists es; split; [done | by apply (route_edges_length G)] |].
    destruct (for_each_appends (junction G path) _ _
                (λ x acc r _, turn_step_junction G path es x acc r Ha) _ _ E)
      as (outs & -> & HF).
    pose proof (Forall2_length _ _ _ HF) as Hn. rewrite length_seq in Hn.
    assert (Hle : (length (concat outs) ≤ length outs)%nat).
    { apply concat_length_le. apply Forall_forall. intros out Hout.
      apply list_elem_of_lookup in Hout as [k Hk].
      destruct (Forall2_lookup_r _ _ _ _ _ HF Hk) as (i & _ & Hj).
      by eapply junction_at_most_one. }
    simpl. lia.
Qed.

(** X4: a route of n >= 2 nodes has one edge attribute record per leg and
    between 1 and n - 1 directions: the initial one and at most one per
    junction, none for the destination; a shorter route has none. *)
Theorem directions_count G path ds :
  directions_of G path = Ok ds →
  ((length path < 2)%nat → ds = [])
  ∧ ((2 ≤ length path)%nat →
     (∃ es, route_edges_of G path = Ok es ∧ length es = (length path - 1)%nat)
     ∧ (1 ≤ length ds)%nat ∧ (length ds ≤ length path - 1)%nat).
Proof. apply directions_bounds. Qed.
End DirectionsFacts.

Lemma directions_count_witness :
  ((length [1%Z; 2%Z; 3%Z] < 2)%nat →
   [ {| instruction := "Head toward <strong>Oak St</strong>"; distance := 100 |};
     {| instruction := "Turn left onto <strong>Pine St</strong>"; distance := 80 |} ] = [])
  ∧ ((2 ≤ length [1%Z; 2%Z; 3%Z])%nat →
     (∃ es, route_edges_of corner_graph [1%Z; 2%Z; 3%Z] = Ok es
            ∧ length es = (length [1%Z; 2%Z; 3%Z] - 1)%nat)
     ∧ (1 ≤ 2)%nat ∧ (2 ≤ length [1%Z; 2%Z; 3%Z] - 1)%nat).
Proof.
  apply (@directions_count coarse_math corner_graph [1%Z; 2%Z; 3%Z]).
  vm_compute. reflexivity.
Defined.

Lemma Ok_bind {A B} (a : A) (f : A → result B) : Ok a ≫= f = f a.
Proof. reflexivity. Qed.

Section Describable.
Context {M : MathLib}.

Lemma junction_lookup G path m outs i :
  Forall2 (junction G path) (seq 1 m) outs → (1 ≤ i ≤ m)%nat →
  ∃ out, junction G path i out.
Proof.
  intros HF Hi.
  assert (Hs : seq 1 m !! (i - 1)%nat = Some i).
  { rewrite lookup_seq. split; lia. }
  destruct (Forall2_lookup_l _ _ _ _ _ HF Hs) as (out & _ & Hj). eauto.
Qed.

Lemma directions_of_describable G path ds :
  (2 ≤ length path)%nat → directions_of G path = Ok ds → describable G path.
Proof.
  intros Hlen E. unfold directions_of in E.
  destruct (Nat.ltb_spec (length path) 2) as [? | _]; [lia |].
  inv_bind E. rename a into es, a0 into first_edge, a1 into first.
  destruct (for_each_appends (junction G path) _ _
              (λ x acc r _, turn_step_junction G path es x acc r Ha) _ _ E)
    as (outs & _ & HF).
  split.
  - intros i u v Hu Hv.
    pose proof (lookup_lt_Some _ _ _ Hv) as Hi.
    destruct i as [| i].
    + apply list_getitem_Ok in Ha0.
      destruct (route_edges_lookup _ _ _ _ _ Ha Ha0) as (u' & v' & Hu' & Hv' & He).
      rewrite Hu in Hu'. injection Hu' as <-. rewrite Hv in Hv'. injection Hv' as <-.
      unfold initial_instruction in Ha1. inv_bind Ha1. eauto.
    + destruct (junction_lookup G path _ outs (S i) HF) as (out & Hj); [lia |].
      destruct Hj as (p & c & n & dp & dc & dn & e & street & cls & Hj).
      destruct Hj as (_ & _ & Hc & _ & Hn & _ & He & Hs & _).
      rewrite Hu in Hc. injection Hc as <-.
      replace (S i + 1)%nat with (S (S i)) in Hn by lia.
      rewrite Hv in Hn. injection Hn as <-. eauto.
  - intros Hlen3 n Hn. apply list_elem_of_lookup in Hn as [k Hk].
    pose proof (lookup_lt_Some _ _ _ Hk) as Hlt.
    destruct (decide (k = 0%nat)) as [-> | Hk0].
    + destruct (junction_lookup G path _ outs 1%nat HF) as (out & Hj); [lia |].
      destruct Hj as (p & c & n' & dp & dc & dn & e & street & cls & Hj).
      destruct Hj as (Hp & Hdp & _). simpl in Hp. rewrite Hk in Hp.
      injection Hp as <-. eauto.
    + destruct (decide (k = (length path - 1)%nat)) as [-> | Hkl].
      * destruct (junction_lookup G path _ outs (length path - 2)%nat HF)
          as (out & Hj); [lia |].
        destruct Hj as (p & c & n' & dp & dc & dn & e & street & cls & Hj).
        destruct Hj as (_ & _ & _ & _ & Hn & Hdn & _).
        replace (length path - 2 + 1)%nat with (length path - 1)%nat in Hn by lia.
        rewrite Hk in Hn. injection Hn as <-. eauto.
      * destruct (junction_lookup G path _ outs k HF) as (out & Hj); [lia |].
        destruct Hj as (p & c & n' & dp & dc & dn & e & street & cls & Hj).
        destruct Hj as (_ & _ & Hc & Hdc & _).
        rewrite Hk in Hc. injection Hc as <-. eauto.
Qed.

Lemma describable_directions_of G path :
  (2 ≤ length path)%nat → describable G path → ∃ ds, directions_of G path = Ok ds.
Proof.
  intros Hlen [Hedges Hnodes]. unfold directions_of.
  destruct (Nat.ltb_spec (length path) 2) as [? | _]; [lia |].
  destruct (mapM_Ok_total (λ '(u, v), edge_data_0 G u v)
              (zip (removelast path) (tail path))) as [es Hes].
  { apply Forall_forall. intros [u v] Huv.
    apply list_elem_of_lookup in Huv as [i Hi].
    apply zip_consecutive_lookup in Hi as [Hu Hv].
    destruct (Hedges i u v Hu Hv) as (e & _ & He & _). eauto. }
  fold (route_edges_of G path) in Hes. rewrite Hes. simpl.
  assert (Hstreet : ∀ i e, es !! i = Some e → ∃ street, street_name_of e = Ok street).
  { intros i e He.
    destruct (route_edges_lookup _ _ _ _ _ Hes He) as (u & v & Hu & Hv & Huv).
    destruct (Hedges i u v Hu Hv) as (e' & street & He' & Hs).
    rewrite Huv in He'. injection He' as <-. eauto. }
  pose proof (route_edges_length G _ _ Hes) as Hel.
  destruct (lookup_lt_is_Some_2 es 0) as [e0 He0]; [lia |].
  unfold list_getitem at 1. rewrite He0. simpl.
  destruct (Hstreet _ _ He0) as [s0 Hs0].
  unfold initial_instruction. rewrite Hs0. simpl.
  apply for_each_total. intros i acc Hi.
  apply elem_of_seq in Hi.
  assert (Hlen3 : (3 ≤ length path)%nat) by lia.
  destruct (lookup_lt_is_Some_2 path (i - 1)) as [p Hp]; [lia |].
  destruct (lookup_lt_is_Some_2 path i) as [c Hc]; [lia |].
  destruct (lookup_lt_is_Some_2 path (i + 1)) as [n Hn]; [lia |].
  destruct (lookup_lt_is_Some_2 es i) as [e He]; [lia |].
  destruct (Hnodes Hlen3 p) as [dp Hdp]; [by eapply list_elem_of_lookup_2 |].
  destruct (Hnodes Hlen3 c) as [dc Hdc]; [by eapply list_elem_of_lookup_2 |].
  destruct (Hnodes Hlen3 n) as [dn Hdn]; [by eapply list_elem_of_lookup_2 |].
  destruct (Hstreet _ _ He) as [s Hs].
  unfold turn_step, list_getitem, nodes_getitem.
  rewrite Hp, Ok_bind, Hdp, Ok_bind, Hc, Ok_bind, Hdc, Ok_bind, Hn, Ok_bind,
    Hdn, Ok_bind, He, Ok_bind, Hs, Ok_bind.
  case_bool_decide; eauto.
Qed.

(** X5: for a sequence of at least 2 nodes the directions are computed,
    without any exception, exactly when every pair of consecutive nodes is
    joined by an edge under key 0 whose street name resolves (no empty list
    of names) and, from 3 nodes on, every node is in the graph. *)
Theorem directions_of_succeeds_iff G path :
  (2 ≤ length path)%nat →
  (∃ ds, directions_of G path = Ok ds) ↔ describable G path.
Proof.
  intros Hlen. split.
  - intros [ds E]. by eapply directions_of_describable.
  - by apply describable_directions_of.
Qed.

(** X6: the exception of [G.get_edge_data(u, v)[0]] at the first pair of
    consecutive nodes where it fails is the exception of the directions: a
    TypeError when no edge joins the pair, a KeyError when edges join it but
    none under key 0. *)
Theorem directions_of_first_missing_edge G path i u v e :
  path !! i = Some u → path !! S i = Some v →
  (∀ j a b, (j < i)%nat → path !! j = Some a → path !! S j = Some b →
            ∃ ea, edge_data_0 G a b = Ok ea) →
  edge_data_0 G u v = Raise e →
  directions_of G path = Raise e
  ∧ e = match get_edge_data G u v with None => TypeError | Some _ => KeyError end.
Proof.
  intros Hu Hv Hbefore He. split.
  - pose proof (lookup_lt_Some _ _ _ Hv) as Hlen. unfold directions_of.
    destruct (Nat.ltb_spec (length path) 2) as [? | _]; [lia |].
    unfold route_edges_of.
    rewrite (mapM_raise_at (λ '(u, v), edge_data_0 G u v) _ i (u, v) e); [done | | done |].
    + by apply zip_consecutive_lookup.
    + intros j [a b] Hj Hab. apply zip_consecutive_lookup in Hab as [Ha Hb]. eauto.
  - unfold edge_data_0 in He. destruct (get_edge_data G u v) as [kd |].
    + destruct (kd !! 0%Z); [done | by injection He].
    + by injection He.
Qed.
End Describable.

Lemma joins_sym u v e : joins u v e = joins v u e.
Proof. unfold joins. apply orb_comm. Qed.

Lemma filter_joins_sym u v (es : list edge) :
  filter (λ e, joins u v e = true) es = filter (λ e, joins v u e = true) es.
Proof.
  induction es as [| e es IH]; [done |]. rewrite !filter_cons, IH.
  pose proof (joins_sym u v e). repeat case_decide; congruence.
Qed.

(** X7: the graph being undirected, the edge record looked up for a leg is
    the same in both directions, so a two-node route gives the same
    direction either way. *)
Theorem edge_lookup_symmetric `{M : MathLib} G u v :
  get_edge_data G u v = get_edge_data G v u
  ∧ edge_data_0 G u v = edge_data_0 G v u
  ∧ directions_of G [u; v] = directions_of G [v; u].
Proof.
  assert (Hg : get_edge_data G u v = get_edge_data G v u).
  { unfold get_edge_data. by rewrite filter_joins_sym. }
  assert (He : edge_data_0 G u v = edge_data_0 G v u)
    by (unfold edge_data_0; by rewrite Hg).
  split; [done |]. split; [done |].
  unfold directions_of, route_edges_of. simpl. by rewrite He.
Qed.

Lemma directions_of_succeeds_iff_witness :
  (∃ ds, @directions_of coarse_math corner_graph [1%Z; 2%Z; 3%Z] = Ok ds)
  ↔ describable corner_graph [1%Z; 2%Z; 3%Z].
Proof.
  apply (@directions_of_succeeds_iff coarse_math corner_graph [1%Z; 2%Z; 3%Z]).
  simpl. lia.
Defined.

Lemma directions_of_first_missing_edge_witness :
  @directions_of coarse_math corner_graph [1%Z; 2%Z; 4%Z] = Raise TypeError
  ∧ TypeError = match get_edge_data corner_graph 2 4 with
                | None => TypeError
                | Some _ => KeyError
                end.
Proof.
  apply (@directions_of_first_missing_edge coarse_math corner_graph
           [1%Z; 2%Z; 4%Z] 1 2 4 TypeError).
  - reflexivity.
  - reflexivity.
  - intros j a b Hj Ha Hb. destruct j as [| j]; [| lia].
    injection Ha as <-. injection Hb as <-. eexists. vm_compute. reflexivity.
  - vm_compute. reflexivity.
Defined.

(** ** The answer of the handler *)

Lemma py_round2_near x : Qabs (py_round2 x - x) <= 1 # 200.
Proof.
  unfold py_round2. pose proof (py_round_nearest (x * 100)) as H.
  apply Qabs_Qle_condition in H as [Hlo Hhi]. apply Qabs_Qle_condition.
  set (r := inject_Z (py_round (x * 100))) in *.
  assert (Hr : r / 100 == r * (1 # 100)) by (unfold Qdiv; reflexivity).
  rewrite Hr. split; lra.
Qed.

Lemma mapM_Ok_length {A B} (f : A → result B) l r :
  mapM f l = Ok r → length r = length l.
Proof. intros H. apply mapM_Ok in H. symmetry. by eapply Forall2_length. Qed.

Section AnswerFacts.
Context {M : MathLib} {L : RoutingLib}.

(** X8: the distance of an answer is the length the path search reports
    between the two resolved nodes, rounded to a multiple of 1/100: the two
    differ by at most 1/200. *)
Theorem reported_distance_is_rounded_total G data resp :
  get_path G data = Ok resp →
  ∃ src_node dst_node total_distance,
    nearest_nodes G (lon (source data)) (lat (source data)) = Ok src_node
    ∧ nearest_nodes G (lon (target data)) (lat (target data)) = Ok dst_node
    ∧ shortest_path_length G src_node dst_node = Ok total_distance
    ∧ Qabs (resp_distance resp - total_distance) <= 1 # 200
    ∧ ∃ k : Z, resp_distance resp == inject_Z k / 100.
Proof.
  intros E. unfold get_path in E. cbn [source target lat lon fst snd] in E. inv_bind E.
  injection E as <-. cbn [resp_distance].
  exists a, a0, a3. repeat split; try done.
  - apply py_round2_near.
  - eexists. unfold py_round2. reflexivity.
Qed.

(** X9: an answer has one coordinate pair per node of the path and at most
    one direction per leg; it has no directions exactly when its path has
    fewer than two points. *)
Theorem answer_shape G data resp :
  get_path G data = Ok resp →
  (length (resp_directions resp) ≤ length (resp_path resp) - 1)%nat
  ∧ (resp_directions resp = [] ↔ (length (resp_path resp) < 2)%nat).
Proof.
  intros E. unfold get_path in E. cbn [source target lat lon fst snd] in E. inv_bind E.
  injection E as <-. cbn [resp_directions resp_path].
  rename a1 into path_nodes, a2 into coords, a4 into ds.
  apply mapM_Ok_length in Ha2. rewrite Ha2.
  destruct (directions_bounds G path_nodes ds Ha4) as [Hshort Hlong].
  destruct (Nat.lt_ge_cases (length path_nodes) 2) as [Hlt | Hge].
  - rewrite (Hshort Hlt). simpl. split; [lia | done].
  - destruct (Hlong Hge) as (_ & H1 & H2). split; [done |].
    split; [intros ->; simpl in H1; lia | lia].
Qed.

(** X10: the handler answers exactly when both points resolve to a node,
    the path search gives a path and its length, every node of the path is
    in the graph and, for a path of at least two nodes, all its legs can be
    described; it catches no exception. *)
Theorem get_path_succeeds_iff G data :
  (∃ resp, get_path G data = Ok resp)
  ↔ ∃ src_node dst_node path_nodes total_distance,
      nearest_nodes G (lon (source data)) (lat (source data)) = Ok src_node
      ∧ nearest_nodes G (lon (target data)) (lat (target data)) = Ok dst_node
      ∧ shortest_path G src_node dst_node = Ok path_nodes
      ∧ (∀ n, n ∈ path_nodes → is_Some (nodes G !! n))
      ∧ shortest_path_length G src_node dst_node = Ok total_distance
      ∧ ((2 ≤ length path_nodes)%nat → describable G path_nodes).
Proof.
  split.
  - intros [resp E]. unfold get_path in E.
    cbn [source target lat lon fst snd] in E. inv_bind E.
    exists a, a0, a1, a3.
    split; [done |]. split; [done |]. split; [done |].
    split; [| split; [done |]].
    + intros n Hn. apply mapM_Ok in Ha2.
      apply list_elem_of_lookup in Hn as [i Hi].
      destruct (Forall2_lookup_l _ _ _ _ _ Ha2 Hi) as (c & _ & Hc).
      simpl in Hc. inv_bind Hc. apply nodes_getitem_Ok in Ha5. eauto.
    + intros Hlen. by eapply directions_of_describable.
  - intros (s & t & p & total & Hs & Ht & Hp & Hnodes & Htotal & Hdesc).
    unfold get_path. cbn [source target lat lon fst snd].
    rewrite Hs, Ok_bind, Ht, Ok_bind, Hp, Ok_bind.
    destruct (mapM_Ok_total
                (λ n, d ← nodes_getitem G n; mret (node_y d, node_x d)) p)
      as [coords ->].
    { apply Forall_forall. intros n Hn. destruct (Hnodes n Hn) as [d Hd].
      unfold nodes_getitem. rewrite Hd. eexists. reflexivity. }
    rewrite Ok_bind, Htotal, Ok_bind.
    destruct (Nat.lt_ge_cases (length p) 2) as [Hlt | Hge].
    + rewrite directions_of_short by done. eexists. reflexivity.
    + destruct (describable_directions_of G p Hge (Hdesc Hge)) as [ds ->].
      eexists. reflexivity.
Qed.
End AnswerFacts.

(** ** Reverse geocoding *)

(** X11: whatever the geocoding service does, the client of
    [reverse_geocode] receives a name with status 200 ("Unknown location"
    when the service finds nothing) or status 500 with the detail "Reverse
    geocoding service failed.", never a bare 500: every exception is caught. *)
Theorem reverse_geocode_answers geocode lat lon :
  (∀ address, geocode lat lon = Ok (Some address) →
              serve (reverse_geocode geocode lat lon) = Http200 address)
  ∧ (geocode lat lon = Ok None →
     serve (reverse_geocode geocode lat lon) = Http200 "Unknown location")
  ∧ (∀ e, geocode lat lon = Raise e →
          serve (reverse_geocode geocode lat lon)
          = HttpError 500 "Reverse geocoding service failed.")
  ∧ serve (reverse_geocode geocode lat lon) ≠ InternalServerError.
Proof.
  unfold reverse_geocode.
  destruct (geocode lat lon) as [[address |] | e]; simpl;
    repeat split; intros; try done; congruence.
Qed.

Lemma reported_distance_is_rounded_total_witness :
  ∃ resp,
    @get_path coarse_math (@PathSearch.routing coarse_math) corner_graph
      (mk_request 0 0 (1 # 1000) (1 # 1000)) = Ok resp
    ∧ ∃ src_node dst_node total_distance,
        @PathSearch.Nearest coarse_math corner_graph 0 0 = Ok src_node
        ∧ @PathSearch.Nearest coarse_math corner_graph (1 # 1000) (1 # 1000) = Ok dst_node
        ∧ @shortest_path_length (@PathSearch.routing coarse_math) corner_graph src_node dst_node
          = Ok total_distance
        ∧ Qabs (resp_distance resp - total_distance) <= 1 # 200
        ∧ ∃ k : Z, resp_distance resp == inject_Z k / 100.
Proof.
  eexists. split; [vm_compute; reflexivity |].
  apply (@reported_distance_is_rounded_total coarse_math (@PathSearch.routing coarse_math)
           corner_graph (mk_request 0 0 (1 # 1000) (1 # 1000))).
  vm_compute. reflexivity.
Defined.

Lemma answer_shape_witness :
  ∃ resp,
    @get_path coarse_math (@PathSearch.routing coarse_math) corner_graph
      (mk_request 0 0 (1 # 1000) (1 # 1000)) = Ok resp
    ∧ (length (resp_directions resp) ≤ length (resp_path resp) - 1)%nat
    ∧ (resp_directions resp = [] ↔ (length (resp_path resp) < 2)%nat).
Proof.
  eexists. split; [vm_compute; reflexivity |].
  apply (@answer_shape coarse_math (@PathSearch.routing coarse_math) corner_graph
           (mk_request 0 0 (1 # 1000) (1 # 1000))).
  vm_compute. reflexivity.
Defined.

(** ** Bearings again *)




